(** * gettext-parser: the PO compiler ([lib/pocompiler.js])

    A shallow embedding of the PO compiler and the properties of its
    charset handling, entry ordering, block layout, string escaping and
    behaviour on degenerate inputs.

    JavaScript strings are modelled as [string]: every character is one code
    unit below 256.  JavaScript objects used as maps are association lists
    kept in property-creation order; [Object_keys] computes the enumeration
    order from it.  [null] and [undefined] inputs of the constructor are
    [None]; a property that is missing is [None] as well. *)

From Stdlib Require Import String Ascii List ZArith NArith Lia Bool.
From Stdlib Require Import Permutation Sorted DecimalString.
Import ListNotations.

Local Open Scope list_scope.
Local Open Scope string_scope.

(** ** Characters and strings *)

Definition TAB : ascii := "009"%char.
Definition LF : ascii := "010"%char.
Definition CR : ascii := "013"%char.
Definition DQ : ascii := "034"%char.
Definition BSL : ascii := "092"%char.

Definition str1 (a : ascii) : string := String a EmptyString.

(** The string literals of the source that hold a quote or a line break. *)
Definition nl : string := str1 LF.
Definition nlnl : string := String LF (String LF EmptyString).
Definition dq : string := str1 DQ.

(** [a || b] on strings that may be undefined: the empty string and
    [undefined] are falsy. *)
Definition or_str (a b : option string) : option string :=
  match a with
  | Some s => if (s =? EmptyString)%string then b else a
  | None => b
  end.

(** [(v || '')], a string in every case. *)
Definition or_empty (v : option string) : string :=
  match v with
  | Some s => s
  | None => EmptyString
  end.

Definition truthy_str (s : string) : bool := negb (s =? EmptyString)%string.

(** [s.split(c)] for a one-character separator. *)
Fixpoint split_on (c : ascii) (s : string) : list string :=
  match s with
  | EmptyString => [EmptyString]
  | String a s' =>
      if (a =? c)%char then EmptyString :: split_on c s'
      else match split_on c s' with
           | [] => [str1 a]
           | p :: ps => String a p :: ps
           end
  end.

(** White space of [String.prototype.trim] among the code units below 256:
    TAB, LF, VT, FF, CR, SPACE and NBSP. *)
Definition is_white (a : ascii) : bool :=
  let n := nat_of_ascii a in
  (((9 <=? n) && (n <=? 13)) || (n =? 32) || (n =? 160))%nat.

Fixpoint trimStart (s : string) : string :=
  match s with
  | EmptyString => EmptyString
  | String a s' => if is_white a then trimStart s' else s
  end.

Fixpoint trimEnd (s : string) : string :=
  match s with
  | EmptyString => EmptyString
  | String a s' =>
      match trimEnd s' with
      | EmptyString => if is_white a then EmptyString else str1 a
      | t => String a t
      end
  end.

Definition trim (s : string) : string := trimEnd (trimStart s).

(** [toLowerCase] on code units below 256: A-Z and the Latin-1 capitals. *)
Definition lower_char (a : ascii) : ascii :=
  let n := nat_of_ascii a in
  if (((65 <=? n) && (n <=? 90))
      || ((192 <=? n) && (n <=? 222) && negb (n =? 215)))%nat
  then ascii_of_nat (n + 32) else a.

Fixpoint toLowerCase (s : string) : string :=
  match s with
  | EmptyString => EmptyString
  | String a s' => String (lower_char a) (toLowerCase s')
  end.

(** [s.replace(/c/g, rep)] for a one-character pattern. *)
Fixpoint replace_all (c : ascii) (rep : string) (s : string) : string :=
  match s with
  | EmptyString => EmptyString
  | String a s' =>
      if (a =? c)%char then rep ++ replace_all c rep s'
      else String a (replace_all c rep s')
  end.

(** [s.split(/\r?\n|\r/)]: CR LF, LF and CR each end a line. *)
Fixpoint split_lines (s : string) : list string :=
  match s with
  | EmptyString => [EmptyString]
  | String a s' =>
      if (a =? LF)%char then EmptyString :: split_lines s'
      else if (a =? CR)%char then
        match s' with
        | String b s'' =>
            if (b =? LF)%char then EmptyString :: split_lines s''
            else EmptyString :: split_lines s'
        | EmptyString => EmptyString :: split_lines s'
        end
      else match split_lines s' with
           | [] => [str1 a]
           | p :: ps => String a p :: ps
           end
  end.

(** The decimal rendering of an array index, as in ['msgstr[' + i + ']']. *)
Definition index_to_string (i : nat) : string :=
  NilZero.string_of_uint (Nat.to_uint i).

(** ** JavaScript values and objects *)

Inductive jsprim : Type :=
| JUndefined
| JNull
| JBool (b : bool)
| JNum (n : Z)
| JStr (s : string).

(** [typeof] on the values that are not objects; [typeof null] is
    ["object"]. *)
Definition typeof_prim (p : jsprim) : string :=
  match p with
  | JUndefined => "undefined"
  | JNull => "object"
  | JBool _ => "boolean"
  | JNum _ => "number"
  | JStr _ => "string"
  end.

Definition truthy_prim (p : jsprim) : bool :=
  match p with
  | JUndefined | JNull => false
  | JBool b => b
  | JNum n => negb (n =? 0)%Z
  | JStr s => truthy_str s
  end.

(** An object used as a map: its own properties in creation order. *)
Definition obj (A : Type) : Type := list (string * A).

Fixpoint obj_get {A} (o : obj A) (k : string) : option A :=
  match o with
  | [] => None
  | (k', v) :: o' => if (k' =? k)%string then Some v else obj_get o' k
  end.

(** [o[k] = v]: an existing property keeps its place, a new one is
    created last. *)
Fixpoint obj_set {A} (o : obj A) (k : string) (v : A) : obj A :=
  match o with
  | [] => [(k, v)]
  | (k', v') :: o' =>
      if (k' =? k)%string then (k, v) :: o' else (k', v') :: obj_set o' k v
  end.

Definition is_digit (a : ascii) : bool :=
  let n := nat_of_ascii a in ((48 <=? n) && (n <=? 57))%nat.

Fixpoint digits_value (s : string) (acc : N) : option N :=
  match s with
  | EmptyString => Some acc
  | String a s' =>
      if is_digit a
      then digits_value s' (10 * acc + (N_of_ascii a - 48))%N
      else None
  end.

(** An array index is the canonical decimal string of an integer below
    2^32 - 1. *)
Definition array_index (s : string) : option N :=
  match s with
  | EmptyString => None
  | String a s' =>
      if (a =? "0")%char && negb (s' =? EmptyString)%string then None
      else match digits_value s 0%N with
           | Some n => if (n <=? 4294967294)%N then Some n else None
           | None => None
           end
  end.

Definition is_array_index (s : string) : bool :=
  match array_index s with
  | Some _ => true
  | None => false
  end.

Fixpoint insert_index (x : N * string) (l : list (N * string)) :
  list (N * string) :=
  match l with
  | [] => [x]
  | y :: l' =>
      if (fst x <=? fst y)%N then x :: l else y :: insert_index x l'
  end.

Fixpoint index_keys (ks : list string) : list (N * string) :=
  match ks with
  | [] => []
  | k :: ks' =>
      match array_index k with
      | Some n => insert_index (n, k) (index_keys ks')
      | None => index_keys ks'
      end
  end.

(** [Object.keys(o)]: the array-index keys in ascending numeric order, then
    the other keys in creation order. *)
Definition Object_keys {A} (o : obj A) : list string :=
  (map snd (index_keys (map fst o))
   ++ filter (fun k => negb (is_array_index k)) (map fst o))%list.

(** ** The translation table *)

(** The [comments] object of an entry. *)
Record Comments : Type := mkComments {
  translator : option string;
  reference : option string;
  extracted : option string;
  flag : option string;
  previous : option string
}.

(** The [msgstr] property: an array of strings (with possibly undefined
    elements), or a single string. *)
Inductive MsgstrValue : Type :=
| MsgstrString (s : string)
| MsgstrArray (l : list (option string)).

Record Entry : Type := mkEntry {
  comments : option Comments;
  msgctxt : option string;
  msgid : option string;
  msgid_plural : option string;
  msgstr : option MsgstrValue
}.

(** The object literal [{}]. *)
Definition empty_entry : Entry := mkEntry None None None None None.

(** What a context maps a msgid to, and what [translations] maps a context
    to: an object, or a value that is not one. *)
Inductive EntryValue : Type :=
| EntryPrim (p : jsprim)
| EntryObj (e : Entry).

Inductive ContextValue : Type :=
| ContextPrim (p : jsprim)
| ContextObj (o : obj EntryValue).

Record Table : Type := mkTable {
  charset : option string;
  headers : option (obj string);
  translations : option (obj ContextValue)
}.

(** The [sort] option: a comparator function, or any other value. *)
Inductive SortOption : Type :=
| SortPrim (p : jsprim)
| SortFunction (f : Entry -> Entry -> Z).

(** The options object; [None] is a property that is not [in] it. *)
Record Options : Type := mkOptions {
  foldLength : option Z;
  sort : option SortOption
}.

Record Compiler : Type := mkCompiler {
  _table : Table;
  _options : Options;
  _charset : string
}.

(** The returned buffer, by the call that builds it: the byte conversion
    itself belongs to [safe-buffer] and [encoding]. *)
Inductive Buffer : Type :=
| Buffer_from (text : string) (enc : string)
| encoding_convert (text : string) (cs : string).

Definition buffer_text (b : Buffer) : string :=
  match b with
  | Buffer_from text _ => text
  | encoding_convert text _ => text
  end.

(** A call returns, or throws a TypeError. *)
Inductive result (A : Type) : Type :=
| Ok (a : A)
| TypeError.

Arguments Ok {A} a.
Arguments TypeError {A}.

Definition bind {A B} (r : result A) (k : A -> result B) : result B :=
  match r with
  | Ok a => k a
  | TypeError => TypeError
  end.

Notation "x <- r ;; k" := (bind r (fun x => k))
  (at level 61, r at next level, right associativity).

(** What the caller holds after a call: the returned value and the state of
    the two objects it passed. *)
Record Outcome : Type := mkOutcome {
  returned : result Buffer;
  table_after : option Table;
  options_after : option Options
}.

(** ** Comparator and sort *)

(** [a > b] on two properties that are strings or undefined. *)
Definition js_gt (a b : option string) : bool :=
  match a, b with
  | Some x, Some y => String.ltb y x
  | _, _ => false
  end.

Definition compare (r1 r2 : Entry) : Z :=
  if js_gt (msgid r1) (msgid r2) then 1
  else if js_gt (msgid r2) (msgid r1) then (-1)
  else 0.

Fixpoint sort_insert (cmp : Entry -> Entry -> Z) (x : Entry)
  (l : list Entry) : list Entry :=
  match l with
  | [] => [x]
  | y :: l' =>
      if (cmp x y <=? 0)%Z then x :: l else y :: sort_insert cmp x l'
  end.

(** [Array.prototype.sort(cmp)] for a comparator that is consistent on the
    elements in the sense of ECMAScript ([consistent_comparator] below): the
    sort is then stable and its result is the one computed here.  For any
    other comparator the order is left to the engine, and nothing is stated
    about it. *)
Definition Array_sort (cmp : Entry -> Entry -> Z) (l : list Entry) :
  list Entry :=
  fold_right (sort_insert cmp) [] l.

(** ** Comments *)

Definition comment_types : list ((Comments -> option string) * string) :=
  [ (translator, "# "); (reference, "#: "); (extracted, "#. ");
    (flag, "#, "); (previous, "#| ") ].

Definition comment_lines (c : Comments)
  (type : (Comments -> option string) * string) : list string :=
  match fst type c with
  | Some s =>
      if truthy_str s then map (fun line => snd type ++ line) (split_lines s)
      else []
  | None => []
  end.

Definition _drawComments (c : Comments) : string :=
  String.concat nl (flat_map (comment_lines c) comment_types).

(** ** Escaping *)

Definition escape (value : string) : string :=
  replace_all LF (String BSL "n")
    (replace_all CR (String BSL "r")
       (replace_all TAB (String BSL "t")
          (replace_all DQ (String BSL dq)
             (replace_all BSL (String BSL (str1 BSL)) value)))).

Fixpoint mapi_from {A B} (i : nat) (f : nat -> A -> B) (l : list A) :
  list B :=
  match l with
  | [] => []
  | x :: l' => f i x :: mapi_from (S i) f l'
  end.

Definition or_comments (a b : option Comments) : option Comments :=
  match a with
  | Some _ => a
  | None => b
  end.

(** [override.msgstr || block.msgstr]: an array is truthy even when empty. *)
Definition or_msgstr (a b : option MsgstrValue) : option MsgstrValue :=
  match a with
  | Some (MsgstrString s) => if truthy_str s then a else b
  | Some (MsgstrArray _) => a
  | None => b
  end.

(** [[].concat(v)]: an array is spread, any other value is one element. *)
Definition concat_msgstr (v : option MsgstrValue) : list (option string) :=
  match v with
  | None => [None]
  | Some (MsgstrString s) => [Some s]
  | Some (MsgstrArray l) => l
  end.

Definition or_obj {A} (o : option (obj A)) : obj A :=
  match o with
  | Some o => o
  | None => []
  end.

(** The value pushed for an entry whose [typeof] is ["object"]: the entry,
    or [None] for [null]. *)
Definition entry_object (v : EntryValue) : option (option Entry) :=
  match v with
  | EntryObj e => Some (Some e)
  | EntryPrim p =>
      if (typeof_prim p =? "object")%string then Some None else None
  end.

Definition collect_context (msgctxt : string) (entries : obj EntryValue) :
  list (option Entry) :=
  flat_map
    (fun msgid =>
       match obj_get entries msgid with
       | Some v =>
           match entry_object v with
           | Some r =>
               if (msgctxt =? EmptyString)%string
                  && (msgid =? EmptyString)%string
               then [] else [r]
           | None => []
           end
       | None => []
       end)
    (Object_keys entries).

(** The two nested [forEach] loops of [compile]; [Object.keys(null)]
    throws. *)
Fixpoint collect (t : obj ContextValue) (keys : list string) :
  result (list (option Entry)) :=
  match keys with
  | [] => Ok []
  | msgctxt :: keys' =>
      match obj_get t msgctxt with
      | Some (ContextObj o) =>
          rest <- collect t keys' ;;
          Ok (collect_context msgctxt o ++ rest)%list
      | Some (ContextPrim p) =>
          if (typeof_prim p =? "object")%string then TypeError
          else collect t keys'
      | None => collect t keys'
      end
  end.

(** A [null] among the collected entries reaches [compare], which reads
    [r1.msgid], or at the latest [_drawBlock], which reads
    [block.comments]: a TypeError in either case. *)
Fixpoint entries_or_throw (l : list (option Entry)) : result (list Entry) :=
  match l with
  | [] => Ok []
  | None :: _ => TypeError
  | Some e :: l' => rest <- entries_or_throw l' ;; Ok (e :: rest)
  end.

Definition header_entry (t : obj ContextValue) : Entry :=
  match obj_get t EmptyString with
  | Some (ContextObj o) =>
      match obj_get o EmptyString with
      | Some (EntryObj e) => e
      | _ => empty_entry
      end
  | _ => empty_entry
  end.

(** ** The compiler *)

Section PoCompiler.

(** The three functions the compiler takes from [lib/shared.js]. *)
Variable formatCharset : option string -> string.
Variable foldLine : string -> Z -> list string.
Variable generateHeader : obj string -> string.

Definition _addPOString (this : Compiler) (key : string)
  (value : option string) : string :=
  let value := escape (or_empty (or_str value (Some EmptyString))) in
  let lines :=
    match foldLength (_options this) with
    | Some n => if (0 <? n)%Z then foldLine value n else [value]
    | None => [value]
    end in
  if (List.length lines <? 2)%nat
  then key ++ " " ++ dq
       ++ or_empty (or_str (hd_error lines) (Some EmptyString)) ++ dq
  else key ++ " " ++ dq ++ dq ++ nl ++ dq
       ++ String.concat (dq ++ nl ++ dq) lines ++ dq.

Definition _drawBlock (this : Compiler) (block : Entry)
  (override : option Entry) : string :=
  let override :=
    match override with
    | Some o => o
    | None => empty_entry
    end in
  let response : list string := [] in
  let comments := or_comments (comments override) (comments block) in
  let msgctxt := or_str (msgctxt override) (msgctxt block) in
  let msgid := or_str (msgid override) (msgid block) in
  let msgidPlural := or_str (msgid_plural override) (msgid_plural block) in
  let msgstr := concat_msgstr (or_msgstr (msgstr override) (msgstr block)) in
  let response :=
    match comments with
    | Some c =>
        let c := _drawComments c in
        if truthy_str c then (response ++ [c])%list else response
    | None => response
    end in
  let response :=
    if truthy_str (or_empty msgctxt)
    then (response ++ [_addPOString this "msgctxt" msgctxt])%list
    else response in
  let response :=
    (response
     ++ [_addPOString this "msgid" (or_str msgid (Some EmptyString))])%list
  in
  let response :=
    if truthy_str (or_empty msgidPlural)
    then (response
          ++ [_addPOString this "msgid_plural" msgidPlural]
          ++ mapi_from 0
               (fun i msgstr =>
                  _addPOString this
                    ("msgstr[" ++ index_to_string i ++ "]")%string
                    (or_str msgstr (Some EmptyString)))
               msgstr)%list
    else (response
          ++ [_addPOString this "msgstr"
                (or_str (hd None msgstr) (Some EmptyString))])%list in
  String.concat nl response.

(** The callback of [parts.map] in [_handleCharset], with the [charset]
    variable it closes over threaded through. *)
Definition charset_param (charset : string) (part : string) :
  string * string :=
  let parts := split_on "=" part in
  let key := trim (hd EmptyString parts) in
  let value := String.concat "=" (tl parts) in
  if (toLowerCase key =? "charset")%string then
    let charset :=
      if truthy_str charset then charset
      else formatCharset (or_str (Some (trim value)) (Some "utf-8")) in
    (charset, "charset=" ++ charset)
  else (charset, part).

Fixpoint map_params (charset : string) (parts : list string) :
  string * list string :=
  match parts with
  | [] => (charset, [])
  | part :: parts' =>
      let (charset, p) := charset_param charset part in
      let (charset, ps) := map_params charset parts' in
      (charset, p :: ps)
  end.

Definition _handleCharset (this : Compiler) : Compiler :=
  let table := _table this in
  let hdrs := or_obj (headers table) in
  let parts :=
    split_on ";"
      (or_empty (or_str (obj_get hdrs "content-type") (Some "text/plain")))
  in
  let contentType := hd EmptyString parts in
  let parts := tl parts in
  let tableCharset := charset table in
  let charset := formatCharset tableCharset in
  let (charset, params) := map_params charset parts in
  let (charset, params) :=
    if truthy_str charset then (charset, params)
    else
      let charset := or_empty (or_str tableCharset (Some "utf-8")) in
      (charset, (params ++ [("charset=" ++ charset)%string])%list) in
  let hdrs :=
    obj_set hdrs "content-type"
      (contentType ++ "; " ++ String.concat "; " params) in
  mkCompiler
    (mkTable (Some charset) (Some hdrs) (translations table))
    (_options this) charset.

(** The constructor. *)
Definition new_Compiler (table : option Table) (options : option Options) :
  Compiler :=
  let table :=
    match table with
    | Some t => t
    | None => mkTable None None None
    end in
  let table :=
    mkTable (charset table) (Some (or_obj (headers table)))
      (translations table) in
  let table :=
    mkTable (charset table) (headers table)
      (Some (or_obj (translations table))) in
  let options :=
    match options with
    | Some o => o
    | None => mkOptions None None
    end in
  let options :=
    match foldLength options with
    | Some _ => options
    | None => mkOptions (Some 76%Z) (sort options)
    end in
  let options :=
    match sort options with
    | Some _ => options
    | None => mkOptions (foldLength options) (Some (SortPrim (JBool false)))
    end in
  _handleCharset (mkCompiler table options EmptyString).

Definition sort_response (s : option SortOption) (response : list Entry) :
  list Entry :=
  match s with
  | Some (SortPrim (JBool false)) => response
  | Some (SortFunction f) => Array_sort f response
  | _ => Array_sort compare response
  end.

(** The blocks that [compile] joins, header block first. *)
Definition compile_blocks (this : Compiler) : result (list string) :=
  let table := _table this in
  let trs := or_obj (translations table) in
  let headerBlock := header_entry trs in
  response <- collect trs (Object_keys trs) ;;
  response <- entries_or_throw response ;;
  let response := sort_response (sort (_options this)) response in
  let response := map (fun r => _drawBlock this r None) response in
  Ok (_drawBlock this headerBlock
        (Some (mkEntry None None None None
                 (Some (MsgstrString
                          (generateHeader (or_obj (headers table)))))))
      :: response).

Definition compile (this : Compiler) : result Buffer :=
  response <- compile_blocks this ;;
  if ((_charset this =? "utf-8") || (_charset this =? "ascii"))%string
  then Ok (Buffer_from (String.concat nlnl response) "utf-8")
  else Ok (encoding_convert (String.concat nlnl response) (_charset this)).

(** The exported function, with what it leaves in the objects it was
    given: the constructor works on the caller's [table] and [options]
    when they are objects, and on fresh ones otherwise. *)
Definition compilePO (table : option Table) (options : option Options) :
  Outcome :=
  let compiler := new_Compiler table options in
  mkOutcome (compile compiler)
    (match table with
     | Some _ => Some (_table compiler)
     | None => None
     end)
    (match options with
     | Some _ => Some (_options compiler)
     | None => None
     end).

End PoCompiler.

(** ** The shared functions, from their description

    [lib/shared.js] is not among the sources.  The compiler above takes its
    three functions as parameters; the definitions below follow the
    specification of these functions and instantiate the parameters where a
    concrete run of the compiler is evaluated. *)

Module Shared.

(** Modelled from the spec: [formatCharset] of the missing
    [lib/shared.js] (the spec's [normalizeCharsetName]), which lower-cases
    the name and maps known aliases ("utf8" to "utf-8"), returns a name
    that is no alias as it is, and never fails: a name that is not given
    stays empty. *)
Definition formatCharset (name : option string) : string :=
  match name with
  | None => EmptyString
  | Some s =>
      let l := toLowerCase s in
      if (l =? "utf8")%string then "utf-8" else l
  end.

Fixpoint take (n : nat) (s : string) : string :=
  match n, s with
  | S n', String a s' => String a (take n' s')
  | _, _ => EmptyString
  end.

Fixpoint drop (n : nat) (s : string) : string :=
  match n, s with
  | S n', String _ s' => drop n' s'
  | _, _ => s
  end.

(** The position after the last white-space character among the first
    [n] characters, if there is one. *)
Fixpoint last_space (n : nat) (i : nat) (s : string) : option nat :=
  match n, s with
  | S n', String a s' =>
      match last_space n' (S i) s' with
      | Some j => Some j
      | None => if is_white a then Some (S i) else None
      end
  | _, _ => None
  end.

(** Whether [s] ends in the middle of an escape sequence: in an odd
    number of backslashes. *)
Fixpoint open_escape (s : string) (odd : bool) : bool :=
  match s with
  | EmptyString => odd
  | String a s' =>
      if (a =? BSL)%char then open_escape s' (negb odd)
      else open_escape s' false
  end.

Fixpoint fold_pieces (fuel : nat) (w : nat) (text : string) : list string :=
  match fuel with
  | O => [text]
  | S fuel' =>
      if (String.length text <=? w)%nat then [text]
      else
        let cut :=
          match last_space w 0 text with
          | Some j => j
          | None =>
              if open_escape (take w text) false
              then (if (1 <? w)%nat then w - 1 else w + 1)%nat
              else w
          end in
        take cut text :: fold_pieces fuel' w (drop cut text)
  end.

(** Modelled from the spec: [foldLine] of the missing [lib/shared.js],
    which splits the text into pieces no longer than [maxWidth], breaking
    preferentially at white-space boundaries and never inside an escape
    sequence, and returns the text as a single piece when
    [maxWidth <= 0]. *)
Definition foldLine (text : string) (maxWidth : Z) : list string :=
  if (maxWidth <=? 0)%Z then [text]
  else fold_pieces (String.length text) (Z.to_nat maxWidth) text.

(** Modelled from the spec: [generateHeader] of the missing
    [lib/shared.js] (the spec's [generateHeaderBlock]), which renders the
    header mapping as the newline-joined [key: value] pairs, in the order
    the headers are supplied. *)
Definition generateHeader (hs : obj string) : string :=
  String.concat nl (map (fun kv => fst kv ++ ": " ++ snd kv) hs).

End Shared.

(** ** Notions the properties are stated with *)

Definition quoted (s : string) : string := dq ++ s ++ dq.

(** The escape of one character, as the specification describes it: the
    five special characters become two-character sequences. *)
Definition escape_char (a : ascii) : string :=
  if (a =? BSL)%char then String BSL (str1 BSL)
  else if (a =? DQ)%char then String BSL dq
  else if (a =? TAB)%char then String BSL "t"
  else if (a =? CR)%char then String BSL "r"
  else if (a =? LF)%char then String BSL "n"
  else str1 a.

Fixpoint escape_chars (s : string) : string :=
  match s with
  | EmptyString => EmptyString
  | String a s' => escape_char a ++ escape_chars s'
  end.

(** Folding leaves [v] in one piece under the options of [this]. *)
Definition kept_whole (foldLine : string -> Z -> list string)
  (this : Compiler) (v : string) : Prop :=
  forall n, foldLength (_options this) = Some n -> (0 < n)%Z ->
    (List.length (foldLine v n) < 2)%nat
    /\ String.concat EmptyString (foldLine v n) = v.

(** An object has one property per key. *)
Definition wf_obj {A} (o : obj A) : Prop := NoDup (map fst o).

Definition not_null_entry (v : EntryValue) : Prop := v <> EntryPrim JNull.

Definition not_null_context (v : ContextValue) : Prop :=
  match v with
  | ContextPrim p => p <> JNull
  | ContextObj o => Forall (fun kv => not_null_entry (snd kv)) o
  end.

(** Every object of the table has one property per key. *)
Definition wf_table (t : obj ContextValue) : Prop :=
  wf_obj t
  /\ Forall
       (fun kv =>
          match snd kv with
          | ContextObj o => wf_obj o
          | ContextPrim _ => True
          end) t.

(** No context and no entry of the table is [null]. *)
Definition no_null (t : obj ContextValue) : Prop :=
  Forall (fun kv => not_null_context (snd kv)) t.

Definition is_pseudo (msgctxt msgid : string) : bool :=
  ((msgctxt =? EmptyString) && (msgid =? EmptyString))%string.

(** The entries of one context and of the table in property-creation
    (insertion) order, the header pseudo-entry left out. *)
Definition listed_context (msgctxt : string) (o : obj EntryValue) :
  list Entry :=
  flat_map
    (fun kv =>
       match snd kv with
       | EntryObj e => if is_pseudo msgctxt (fst kv) then [] else [e]
       | EntryPrim _ => []
       end) o.

Definition listed_entries (t : obj ContextValue) : list Entry :=
  flat_map
    (fun kv =>
       match snd kv with
       | ContextObj o => listed_context (fst kv) o
       | ContextPrim _ => []
       end) t.

(** The same entries in the order [Object.keys] enumerates the contexts and
    the msgids. *)
Definition enumerated_context (msgctxt : string) (o : obj EntryValue) :
  list Entry :=
  flat_map
    (fun msgid =>
       match obj_get o msgid with
       | Some (EntryObj e) => if is_pseudo msgctxt msgid then [] else [e]
       | _ => []
       end) (Object_keys o).

Definition enumerated_entries (t : obj ContextValue) : list Entry :=
  flat_map
    (fun msgctxt =>
       match obj_get t msgctxt with
       | Some (ContextObj o) => enumerated_context msgctxt o
       | _ => []
       end) (Object_keys t).

(** No key of the two levels of the table is an array index. *)
Definition no_index_keys (t : obj ContextValue) : Prop :=
  Forall
    (fun kv =>
       is_array_index (fst kv) = false
       /\ match snd kv with
          | ContextObj o => Forall (fun kv' => is_array_index (fst kv') = false) o
          | ContextPrim _ => True
          end) t.

Definition sort_le (cmp : Entry -> Entry -> Z) (a b : Entry) : Prop :=
  (cmp a b <= 0)%Z.

(** A comparator that orders the entries of [l]: any two are comparable,
    and the order is transitive. *)
Definition consistent_on (cmp : Entry -> Entry -> Z) (l : list Entry) :
  Prop :=
  (forall a b, In a l -> In b l -> sort_le cmp a b \/ sort_le cmp b a)
  /\ (forall a b c, In a l -> In b l -> In c l ->
      sort_le cmp a b -> sort_le cmp b c -> sort_le cmp a c).

(** A consistent comparator for the entries of [l], as ECMAScript asks of
    the function given to [Array.prototype.sort]: [cmp a b = 0] is an
    equivalence on them, and [cmp a b < 0] and [cmp a b > 0] are
    transitive. *)
Definition consistent_comparator (cmp : Entry -> Entry -> Z)
  (l : list Entry) : Prop :=
  (forall a, In a l -> cmp a a = 0%Z)
  /\ (forall a b, In a l -> In b l -> cmp a b = 0%Z -> cmp b a = 0%Z)
  /\ (forall a b c, In a l -> In b l -> In c l ->
      cmp a b = 0%Z -> cmp b c = 0%Z -> cmp a c = 0%Z)
  /\ (forall a b c, In a l -> In b l -> In c l ->
      (cmp a b < 0)%Z -> (cmp b c < 0)%Z -> (cmp a c < 0)%Z)
  /\ (forall a b c, In a l -> In b l -> In c l ->
      (0 < cmp a b)%Z -> (0 < cmp b c)%Z -> (0 < cmp a c)%Z).

Definition truthy_sort (s : SortOption) : bool :=
  match s with
  | SortPrim p => truthy_prim p
  | SortFunction _ => true
  end.

(** The parts of the [content-type] header that [_handleCharset] reads. *)
Definition content_type_parts (hs : obj string) : list string :=
  split_on ";"
    (or_empty (or_str (obj_get hs "content-type") (Some "text/plain"))).

Definition is_charset_param (part : string) : bool :=
  (toLowerCase (trim (hd EmptyString (split_on "=" part))) =? "charset")%string.

Definition param_value (part : string) : string :=
  String.concat "=" (tl (split_on "=" part)).

(** The value of the first [charset=] parameter of the header, if any. *)
Definition header_charset (hs : obj string) : option string :=
  option_map param_value (find is_charset_param (tl (content_type_parts hs))).

Definition overwrite (cs : string) (part : string) : string :=
  if is_charset_param part then "charset=" ++ cs else part.

(** A header value with every [charset=] parameter set to [cs]. *)
Definition with_charset (cs : string) (parts : list string) : string :=
  hd EmptyString parts ++ "; "
  ++ String.concat "; " (map (overwrite cs) (tl parts)).

(** The items of a block that come before the plural and [msgstr] lines: the
    comments if they render to any text, [msgctxt] if it is not empty, then
    [msgid]. *)
Definition block_head (foldLine : string -> Z -> list string)
  (this : Compiler) (e : Entry) : list string :=
  (match comments e with
   | Some c => if truthy_str (_drawComments c) then [_drawComments c] else []
   | None => []
   end
   ++ (if truthy_str (or_empty (msgctxt e))
       then [_addPOString foldLine this "msgctxt" (msgctxt e)] else [])
   ++ [_addPOString foldLine this "msgid" (msgid e)])%list.

(** One [msgstr[n]] item per element, in index order. *)
Definition msgstr_lines (foldLine : string -> Z -> list string)
  (this : Compiler) (l : list (option string)) : list string :=
  mapi_from 0
    (fun i s =>
       _addPOString foldLine this ("msgstr[" ++ index_to_string i ++ "]") s)
    l.

(** The examples of the specification. *)
Definition cat_entry : Entry :=
  mkEntry None None (Some "cat") (Some "cats")
    (Some (MsgstrArray [Some "1 cat"; Some "%d cats"])).

Definition cat_block : string :=
  String.concat nl
    [ "msgid " ++ quoted "cat"; "msgid_plural " ++ quoted "cats";
      "msgstr[0] " ++ quoted "1 cat"; "msgstr[1] " ++ quoted "%d cats" ].

Definition quoted_literal : string :=
  "line one" ++ str1 LF ++ "line two" ++ str1 TAB ++ dq ++ "quoted" ++ dq.

Definition quoted_escaped : string :=
  "line one\nline two\t" ++ String BSL dq ++ "quoted" ++ String BSL dq.

(** What the constructor works on when [table] or [options] is [null] or
    [undefined], and the options with the defaults filled in. *)
Definition table_or_empty (table : option Table) : Table :=
  match table with
  | Some t => t
  | None => mkTable None None None
  end.

Definition with_defaults (options : option Options) : Options :=
  let o :=
    match options with
    | Some o => o
    | None => mkOptions None None
    end in
  mkOptions
    (Some match foldLength o with
          | Some n => n
          | None => 76%Z
          end)
    (Some match sort o with
          | Some s => s
          | None => SortPrim (JBool false)
          end).


(** A table whose three entries are created in the order "b", "1", "a". *)
Definition order_translations : obj ContextValue :=
  [ ("", ContextObj
           [ ("b", EntryObj (mkEntry None None (Some "b") None
                               (Some (MsgstrArray [Some "B"]))));
             ("1", EntryObj (mkEntry None None (Some "1") None
                               (Some (MsgstrArray [Some "one"]))));
             ("a", EntryObj (mkEntry None None (Some "a") None
                               (Some (MsgstrArray [Some "A"])))) ]) ].

Definition order_table : Table := mkTable None None (Some order_translations).

(** A table with no key that is an array index, its entries created in the
    order "b", "a". *)
Definition plain_translations : obj ContextValue :=
  [ ("", ContextObj
           [ ("b", EntryObj (mkEntry None None (Some "b") None
                               (Some (MsgstrArray [Some "B"]))));
             ("a", EntryObj (mkEntry None None (Some "a") None
                               (Some (MsgstrArray [Some "A"])))) ]) ].

Definition plain_table : Table := mkTable None None (Some plain_translations).

(** The entries of [order_translations], created in another order. *)
Definition reordered_translations : obj ContextValue :=
  [ ("", ContextObj
           [ ("a", EntryObj (mkEntry None None (Some "a") None
                               (Some (MsgstrArray [Some "A"]))));
             ("1", EntryObj (mkEntry None None (Some "1") None
                               (Some (MsgstrArray [Some "one"]))));
             ("b", EntryObj (mkEntry None None (Some "b") None
                               (Some (MsgstrArray [Some "B"])))) ]) ].

(** Whether the character [c] occurs in [s]. *)
Fixpoint contains (c : ascii) (s : string) : bool :=
  match s with
  | EmptyString => false
  | String a s' => (a =? c)%char || contains c s'
  end.

Definition is_escape_letter (b : ascii) : bool :=
  ((b =? BSL) || (b =? DQ) || (b =? "t") || (b =? "r") || (b =? "n"))%char.

(** A text that can stand between two quotes on one line: it holds no raw
    tab, carriage return, newline or quote, and every backslash starts one
    of the five escape sequences. *)
Fixpoint well_escaped (s : string) : bool :=
  match s with
  | EmptyString => true
  | String a s' =>
      if (a =? BSL)%char then
        match s' with
        | String b s'' => is_escape_letter b && well_escaped s''
        | EmptyString => false
        end
      else
        negb ((a =? DQ) || (a =? TAB) || (a =? CR) || (a =? LF))%char
        && well_escaped s'
  end.

(** The reading of the escape sequences back into characters; it serves to
    show that [escape] loses nothing. *)
Definition unescape_letter (b : ascii) : ascii :=
  if (b =? "t")%char then TAB
  else if (b =? "r")%char then CR
  else if (b =? "n")%char then LF
  else b.

Fixpoint unescape (s : string) : string :=
  match s with
  | EmptyString => EmptyString
  | String a s' =>
      if (a =? BSL)%char then
        match s' with
        | String b s'' => String (unescape_letter b) (unescape s'')
        | EmptyString => str1 a
        end
      else String a (unescape s')
  end.

(** Every line of [s] holds at least one character. *)
Definition solid (s : string) : Prop :=
  Forall (fun l => l <> EmptyString) (split_on LF s).

(** Folding breaks a text without bringing a newline into it. *)
Definition folds_within_line (foldLine : string -> Z -> list string) : Prop :=
  forall v n, contains LF v = false ->
    Forall (fun p => contains LF p = false) (foldLine v n).

(** The pieces of an escaped text that end after each escaped newline. *)
Fixpoint newline_pieces (s : string) : list string :=
  match s with
  | EmptyString => []
  | String a s' =>
      if (a =? BSL)%char then
        match s' with
        | String b s'' =>
            if (b =? "n")%char then String a (str1 b) :: newline_pieces s''
            else match newline_pieces s'' with
                 | [] => [String a (str1 b)]
                 | p :: ps => String a (String b p) :: ps
                 end
        | EmptyString => [str1 a]
        end
      else match newline_pieces s' with
           | [] => [str1 a]
           | p :: ps => String a p :: ps
           end
  end.

(** A second folding to run [_addPOString] with: a piece ends after every
    escaped newline, as PO files are conventionally written, and each such
    piece is folded to the width as [Shared.foldLine] does.  The pieces join
    back to the text, and a text shorter than the width is split when it
    holds an escaped newline. *)
Definition fold_at_newlines (text : string) (maxWidth : Z) : list string :=
  if (maxWidth <=? 0)%Z then [text]
  else flat_map
         (fun piece =>
            Shared.fold_pieces (String.length piece) (Z.to_nat maxWidth) piece)
         (newline_pieces text).

(** * Properties *)

(** ** Strings *)

Lemma append_assoc (a b c : string) : (a ++ b) ++ c = a ++ b ++ c.
Proof.
  induction a as [|x a IH]; simpl; [reflexivity | now rewrite IH].
Qed.

Lemma append_empty_r (a : string) : a ++ EmptyString = a.
Proof.
  induction a as [|x a IH]; simpl; [reflexivity | now rewrite IH].
Qed.

Lemma length_append (a b : string) :
  String.length (a ++ b) = (String.length a + String.length b)%nat.
Proof.
  induction a as [|x a IH]; simpl; [reflexivity | now rewrite IH].
Qed.

Lemma or_empty_default (v : option string) :
  or_empty (or_str v (Some EmptyString)) = or_empty v.
Proof.
  destruct v as [s|]; simpl; [|reflexivity].
  destruct (String.eqb_spec s EmptyString) as [->|]; reflexivity.
Qed.

Lemma truthy_str_true (s : string) : truthy_str s = true <-> s <> EmptyString.
Proof.
  unfold truthy_str.
  destruct (String.eqb_spec s EmptyString); simpl; split; congruence.
Qed.

Lemma truthy_str_false (s : string) : truthy_str s = false <-> s = EmptyString.
Proof.
  unfold truthy_str.
  destruct (String.eqb_spec s EmptyString); simpl; split; congruence.
Qed.

Lemma replace_all_app (c : ascii) (rep a b : string) :
  replace_all c rep (a ++ b) = replace_all c rep a ++ replace_all c rep b.
Proof.
  induction a as [|x a IH]; simpl; [reflexivity|].
  destruct (x =? c)%char; rewrite IH; [now rewrite append_assoc | reflexivity].
Qed.

(** The five passes of [_addPOString] escape every character on its own:
    no pass rewrites what an earlier one produced. *)
Lemma escape_by_char (s : string) : escape s = escape_chars s.
Proof.
  unfold escape.
  induction s as [|a s IH]; [reflexivity|].
  cbn [escape_chars]. rewrite <- IH. clear IH.
  unfold escape_char. cbn [replace_all].
  destruct (Ascii.eqb_spec a BSL) as [->|Hb].
  { now rewrite !replace_all_app. }
  cbn [replace_all].
  destruct (Ascii.eqb_spec a DQ) as [->|Hq].
  { now rewrite !replace_all_app. }
  cbn [replace_all].
  destruct (Ascii.eqb_spec a TAB) as [->|Ht].
  { now rewrite !replace_all_app. }
  cbn [replace_all].
  destruct (Ascii.eqb_spec a CR) as [->|Hr].
  { now rewrite !replace_all_app. }
  cbn [replace_all].
  destruct (Ascii.eqb_spec a LF) as [->|Hl]; reflexivity.
Qed.

Lemma concat_cons (sep x : string) (l : list string) :
  l <> [] -> String.concat sep (x :: l) = x ++ sep ++ String.concat sep l.
Proof.
  destruct l; [congruence | reflexivity].
Qed.

Lemma quoted_lines (lines : list string) :
  lines <> [] ->
  dq ++ String.concat (dq ++ nl ++ dq) lines ++ dq
  = String.concat nl (map quoted lines).
Proof.
  induction lines as [|p lines IH]; [congruence|]. intros _.
  destruct lines as [|q lines]; [reflexivity|].
  rewrite concat_cons by discriminate.
  change (map quoted (p :: q :: lines))
    with (quoted p :: map quoted (q :: lines)).
  rewrite (concat_cons nl (quoted p)) by (simpl; discriminate).
  rewrite <- IH by discriminate.
  unfold quoted. now rewrite !append_assoc.
Qed.

(** ** [_addPOString] *)

Section AddPOString.

Variable foldLine : string -> Z -> list string.
Variable this : Compiler.

Lemma single_line (key v : string) (lines : list string) :
  (List.length lines < 2)%nat -> String.concat EmptyString lines = v ->
  (if (List.length lines <? 2)%nat
   then key ++ " " ++ dq
        ++ or_empty (or_str (hd_error lines) (Some EmptyString)) ++ dq
   else key ++ " " ++ dq ++ dq ++ nl ++ dq
        ++ String.concat (dq ++ nl ++ dq) lines ++ dq)
  = key ++ " " ++ quoted v.
Proof.
  intros Hlen Hcat.
  destruct (Nat.ltb_spec (List.length lines) 2) as [_|]; [|lia].
  rewrite or_empty_default.
  destruct lines as [|p [|q l]]; simpl in *; [now subst | now subst | lia].
Qed.

Lemma addPOString_single (key : string) (value : option string) :
  let v := escape (or_empty value) in
  (forall n, foldLength (_options this) = Some n -> (0 < n)%Z ->
     (List.length (foldLine v n) < 2)%nat
     /\ String.concat EmptyString (foldLine v n) = v) ->
  _addPOString foldLine this key value = key ++ " " ++ quoted v.
Proof.
  intros v H. unfold _addPOString. rewrite or_empty_default. fold v.
  destruct (foldLength (_options this)) as [n|].
  - destruct (Z.ltb_spec 0 n) as [Hn|Hn].
    + destruct (H n eq_refl Hn) as [Hlen Hcat]. now apply single_line.
    + apply single_line; [simpl; lia | reflexivity].
  - apply single_line; [simpl; lia | reflexivity].
Qed.

Lemma addPOString_folded (key : string) (value : option string) (n : Z) :
  let v := escape (or_empty value) in
  foldLength (_options this) = Some n -> (0 < n)%Z ->
  (2 <= List.length (foldLine v n))%nat ->
  _addPOString foldLine this key value
  = String.concat nl
      ((key ++ " " ++ dq ++ dq) :: map quoted (foldLine v n)).
Proof.
  intros v Hn Hpos Hlen. unfold _addPOString.
  rewrite or_empty_default. fold v. rewrite Hn.
  destruct (Z.ltb_spec 0 n) as [_|]; [|lia].
  destruct (Nat.ltb_spec (List.length (foldLine v n)) 2) as [|_]; [lia|].
  assert (Hne : foldLine v n <> []).
  { intros E. rewrite E in Hlen. simpl in Hlen. lia. }
  rewrite concat_cons.
  - rewrite <- (quoted_lines _ Hne). now rewrite !append_assoc.
  - destruct (foldLine v n); [congruence | discriminate].
Qed.

End AddPOString.

(** C6, as amended: with folding on ([foldLength > 0]) the escaped value is
    handed to [foldLine] whatever its length, and the number of pieces that
    come back decides the form.  Two or more pieces are rendered as the line
    [key ""] followed by one quoted line per piece; fewer than two as the
    single line [key "piece"].  A value longer than [foldLength] has two or
    more pieces whenever the pieces join back to it and none is longer than
    [foldLength].  With folding off ([foldLength <= 0]) the output is the
    single line [key "value"] and no folding is applied.  [_addPOString]
    makes no length test of its own: what happens to a value that fits is
    for [foldLine] to decide. *)
Theorem addPOString_folding (foldLine : string -> Z -> list string)
  (this : Compiler) (key : string) (value : option string) (n : Z) :
  let v := escape (or_empty value) in
  foldLength (_options this) = Some n ->
  ((0 < n)%Z -> (2 <= List.length (foldLine v n))%nat ->
   _addPOString foldLine this key value
   = String.concat nl
       ((key ++ " " ++ dq ++ dq) :: map quoted (foldLine v n)))
  /\ ((0 < n)%Z -> (List.length (foldLine v n) < 2)%nat ->
      _addPOString foldLine this key value
      = key ++ " " ++ quoted (or_empty (hd_error (foldLine v n))))
  /\ ((0 < n)%Z -> (n < Z.of_nat (String.length v))%Z ->
      String.concat EmptyString (foldLine v n) = v ->
      Forall (fun p => (Z.of_nat (String.length p) <= n)%Z) (foldLine v n) ->
      (2 <= List.length (foldLine v n))%nat)
  /\ ((n <= 0)%Z ->
      _addPOString foldLine this key value = key ++ " " ++ quoted v).
Proof.
  intros v Hn. split; [|split; [|split]].
  - intros Hpos Hlen. now apply addPOString_folded.
  - intros Hpos Hlen. unfold _addPOString.
    rewrite or_empty_default. fold v. rewrite Hn.
    destruct (Z.ltb_spec 0 n) as [_|]; [|lia].
    destruct (Nat.ltb_spec (List.length (foldLine v n)) 2) as [_|]; [|lia].
    rewrite or_empty_default. reflexivity.
  - intros Hpos Hlong Hcat Hwidth.
    destruct (foldLine v n) as [|p [|q l]]; simpl in *; [| |lia].
    + rewrite <- Hcat in Hlong. simpl in Hlong. lia.
    + inversion Hwidth; subst. lia.
  - intros Hoff. apply addPOString_single. fold v.
    intros m Hm Hpos. rewrite Hn in Hm. injection Hm as <-. lia.
Qed.

(** ** [_drawBlock] *)

Lemma addPOString_value (foldLine : string -> Z -> list string)
  (this : Compiler) (key : string) (a b : option string) :
  or_empty a = or_empty b ->
  _addPOString foldLine this key a = _addPOString foldLine this key b.
Proof.
  intros H. unfold _addPOString. now rewrite !or_empty_default, H.
Qed.

Lemma mapi_from_ext {A B} (f g : nat -> A -> B) (l : list A) :
  (forall i x, f i x = g i x) ->
  forall i, mapi_from i f l = mapi_from i g l.
Proof.
  intros H. induction l as [|x l IH]; intros i; simpl;
    [reflexivity | now rewrite H, IH].
Qed.

Section DrawBlock.

Variable foldLine : string -> Z -> list string.
Variable this : Compiler.

Lemma drawBlock_plural_items (e : Entry) (p : string) :
  msgid_plural e = Some p -> p <> EmptyString ->
  _drawBlock foldLine this e None
  = String.concat nl
      (block_head foldLine this e
       ++ [_addPOString foldLine this "msgid_plural" (Some p)]
       ++ msgstr_lines foldLine this (concat_msgstr (msgstr e)))%list.
Proof.
  intros Hp Hne. unfold _drawBlock, block_head, msgstr_lines, empty_entry.
  cbn [comments msgctxt msgid msgid_plural msgstr
       or_comments or_str or_msgstr]. rewrite Hp.
  cbn [or_empty]. apply truthy_str_true in Hne. rewrite Hne.
  rewrite (addPOString_value _ _ _ (or_str (msgid e) (Some EmptyString))
             (msgid e)) by apply or_empty_default.
  rewrite (mapi_from_ext
             (fun i s =>
                _addPOString foldLine this
                  ("msgstr[" ++ index_to_string i ++ "]")
                  (or_str s (Some EmptyString)))
             (fun i s =>
                _addPOString foldLine this
                  ("msgstr[" ++ index_to_string i ++ "]") s))
    by (intros; apply addPOString_value, or_empty_default).
  destruct (comments e) as [c|];
    [destruct (truthy_str (_drawComments c))|];
    destruct (truthy_str (or_empty (msgctxt e))); reflexivity.
Qed.

Lemma drawBlock_singular_items (e : Entry) :
  or_empty (msgid_plural e) = EmptyString ->
  _drawBlock foldLine this e None
  = String.concat nl
      (block_head foldLine this e
       ++ [_addPOString foldLine this "msgstr"
             (hd None (concat_msgstr (msgstr e)))])%list.
Proof.
  intros Hp. unfold _drawBlock, block_head, empty_entry.
  cbn [comments msgctxt msgid msgid_plural msgstr
       or_comments or_str or_msgstr].
  apply truthy_str_false in Hp. rewrite Hp.
  rewrite (addPOString_value _ _ _ (or_str (msgid e) (Some EmptyString))
             (msgid e)) by apply or_empty_default.
  rewrite (addPOString_value _ _ "msgstr"
             (or_str (hd None (concat_msgstr (msgstr e)))
                (Some EmptyString))
             (hd None (concat_msgstr (msgstr e))))
    by apply or_empty_default.
  destruct (comments e) as [c|];
    [destruct (truthy_str (_drawComments c))|];
    destruct (truthy_str (or_empty (msgctxt e))); reflexivity.
Qed.

Lemma addPOString_whole (key v : string) :
  kept_whole foldLine this (escape v) ->
  _addPOString foldLine this key (Some v) = key ++ " " ++ quoted (escape v).
Proof.
  intros H. apply (addPOString_single foldLine this key (Some v)). exact H.
Qed.

End DrawBlock.

(** C8: the block of an entry with [msgid_plural] set holds the comments (if
    any), [msgctxt] if present, [msgid], then [msgid_plural] and one
    [msgstr[n]] item per element of [msgstr] in index order; and the entry
    [{msgid: "cat", msgid_plural: "cats", msgstr: ["1 cat", "%d cats"]}]
    compiles to the four lines of the specification when folding leaves its
    four strings whole. *)
Theorem drawBlock_plural (foldLine : string -> Z -> list string)
  (this : Compiler) :
  (forall e p, msgid_plural e = Some p -> p <> EmptyString ->
     _drawBlock foldLine this e None
     = String.concat nl
         (block_head foldLine this e
          ++ [_addPOString foldLine this "msgid_plural" (Some p)]
          ++ msgstr_lines foldLine this (concat_msgstr (msgstr e)))%list)
  /\ (Forall (kept_whole foldLine this) ["cat"; "cats"; "1 cat"; "%d cats"] ->
      _drawBlock foldLine this cat_entry None = cat_block).
Proof.
  split; [apply drawBlock_plural_items|].
  intros H.
  rewrite (drawBlock_plural_items foldLine this cat_entry "cats")
    by (reflexivity || discriminate).
  inversion H as [|? ? H1 H']; subst. inversion H' as [|? ? H2 H'']; subst.
  inversion H'' as [|? ? H3 H''']; subst.
  inversion H''' as [|? ? H4 _]; subst.
  unfold block_head, msgstr_lines, cat_entry, cat_block.
  cbn [comments msgctxt msgid msgstr concat_msgstr mapi_from or_empty app].
  change (truthy_str EmptyString) with false. cbv iota. cbn [app].
  rewrite !addPOString_whole by assumption.
  reflexivity.
Qed.

(** C10: the block of an entry with a truthy [msgid_plural] and an empty
    [msgstr] array ends with the [msgid_plural] item and holds no
    [msgstr[n]] item; the block of an entry without [msgid_plural] holds
    exactly one [msgstr] item, last, whose value is the empty string when
    [msgstr] is absent. *)
Theorem drawBlock_msgstr_count (foldLine : string -> Z -> list string)
  (this : Compiler) (e : Entry) :
  (forall p, msgid_plural e = Some p -> p <> EmptyString ->
     msgstr e = Some (MsgstrArray []) ->
     _drawBlock foldLine this e None
     = String.concat nl
         (block_head foldLine this e
          ++ [_addPOString foldLine this "msgid_plural" (Some p)])%list)
  /\ (or_empty (msgid_plural e) = EmptyString ->
      _drawBlock foldLine this e None
      = String.concat nl
          (block_head foldLine this e
           ++ [_addPOString foldLine this "msgstr"
                 (hd None (concat_msgstr (msgstr e)))])%list
      /\ (msgstr e = None ->
          _drawBlock foldLine this e None
          = String.concat nl
              (block_head foldLine this e
               ++ [_addPOString foldLine this "msgstr" (Some EmptyString)])%list)
      /\ (msgstr e = None -> kept_whole foldLine this EmptyString ->
          _drawBlock foldLine this e None
          = String.concat nl
              (block_head foldLine this e
               ++ [("msgstr " ++ quoted EmptyString)%string])%list)).
Proof.
  split.
  - intros p Hp Hne Hm.
    rewrite (drawBlock_plural_items foldLine this e p Hp Hne), Hm.
    reflexivity.
  - intros Hp. pose proof (drawBlock_singular_items foldLine this e Hp) as H.
    split; [exact H|]. split.
    + intros Hm. rewrite H, Hm. cbn [concat_msgstr hd].
      now rewrite (addPOString_value foldLine this "msgstr" None
                     (Some EmptyString)).
    + intros Hm Hk. rewrite H, Hm. cbn [concat_msgstr hd].
      rewrite (addPOString_value foldLine this "msgstr" None
                 (Some EmptyString)) by reflexivity.
      now rewrite addPOString_whole.
Qed.

(** C7, as amended: escaping replaces backslash, double quote, tab, carriage
    return and newline, each by its two-character sequence, and nothing
    else, so that the literal [line one<LF>line two<TAB>"quoted"] becomes
    the text [line one\nline two\t\"quoted\"].  An entry without plural that
    has this [msgstr] ends with the single item
    [msgstr "line one\nline two\t\"quoted\""] when folding is off
    ([foldLength <= 0]) or leaves the escaped text whole; when folding is on
    and [foldLine] breaks the escaped text into two or more pieces, the
    entry ends with [msgstr ""] followed by one quoted line per piece. *)
Theorem escape_msgstr (foldLine : string -> Z -> list string)
  (this : Compiler) (e : Entry) :
  (forall value, escape value = escape_chars value)
  /\ escape quoted_literal = quoted_escaped
  /\ (or_empty (msgid_plural e) = EmptyString ->
      msgstr e = Some (MsgstrArray [Some quoted_literal]) ->
      (kept_whole foldLine this quoted_escaped ->
       _drawBlock foldLine this e None
       = String.concat nl
           (block_head foldLine this e
            ++ [("msgstr " ++ quoted quoted_escaped)%string])%list)
      /\ (forall n, foldLength (_options this) = Some n -> (n <= 0)%Z ->
          _drawBlock foldLine this e None
          = String.concat nl
              (block_head foldLine this e
               ++ [("msgstr " ++ quoted quoted_escaped)%string])%list)
      /\ (forall n, foldLength (_options this) = Some n -> (0 < n)%Z ->
          (2 <= List.length (foldLine quoted_escaped n))%nat ->
          _drawBlock foldLine this e None
          = String.concat nl
              (block_head foldLine this e
               ++ [String.concat nl
                     (("msgstr " ++ quoted EmptyString)%string
                      :: map quoted (foldLine quoted_escaped n))])%list)).
Proof.
  split; [apply escape_by_char|]. split; [reflexivity|].
  intros Hp Hm.
  rewrite (drawBlock_singular_items foldLine this e Hp), Hm.
  cbn [concat_msgstr hd]. split; [|split].
  - intros Hk. rewrite addPOString_whole; [reflexivity | exact Hk].
  - intros n Hn Hoff. rewrite addPOString_whole; [reflexivity|].
    intros m Hm' Hpos. rewrite Hn in Hm'. injection Hm' as <-. lia.
  - intros n Hn Hpos Hlen.
    rewrite (addPOString_folded foldLine this "msgstr" (Some quoted_literal)
               n Hn Hpos Hlen).
    reflexivity.
Qed.

(** ** Objects *)

Lemma obj_get_set {A} (o : obj A) (k : string) (v : A) :
  obj_get (obj_set o k v) k = Some v.
Proof.
  induction o as [|[k' v'] o IH]; simpl.
  - now rewrite String.eqb_refl.
  - destruct (String.eqb_spec k' k) as [->|Hk]; simpl.
    + now rewrite String.eqb_refl.
    + apply String.eqb_neq in Hk. now rewrite Hk.
Qed.

Lemma obj_get_set_other {A} (o : obj A) (k k' : string) (v : A) :
  k' <> k -> obj_get (obj_set o k v) k' = obj_get o k'.
Proof.
  intros Hne. induction o as [|[k0 v0] o IH]; simpl.
  - destruct (String.eqb_spec k k'); [congruence | reflexivity].
  - destruct (String.eqb_spec k0 k) as [->|Hk]; simpl.
    + destruct (String.eqb_spec k k'); [congruence | reflexivity].
    + now rewrite IH.
Qed.

(** ** [_handleCharset] *)

Section HandleCharset.

Variable formatCharset : option string -> string.

Lemma charset_param_eq (cs part : string) :
  charset_param formatCharset cs part
  = if is_charset_param part
    then
      let cs' :=
        if truthy_str cs then cs
        else formatCharset
               (or_str (Some (trim (param_value part))) (Some "utf-8")) in
      (cs', "charset=" ++ cs')
    else (cs, part).
Proof. reflexivity. Qed.

Lemma map_params_set (cs : string) (parts : list string) :
  truthy_str cs = true ->
  map_params formatCharset cs parts = (cs, map (overwrite cs) parts).
Proof.
  intros Hcs. induction parts as [|p parts IH]; [reflexivity|].
  cbn [map_params map]. rewrite charset_param_eq. unfold overwrite at 1.
  destruct (is_charset_param p); cbn zeta; rewrite ?Hcs, IH; reflexivity.
Qed.

Lemma map_params_none (cs : string) (parts : list string) :
  find is_charset_param parts = None ->
  map_params formatCharset cs parts = (cs, parts).
Proof.
  induction parts as [|p parts IH]; [reflexivity|].
  cbn [find map_params]. rewrite charset_param_eq.
  destruct (is_charset_param p); [discriminate|].
  intros H. now rewrite (IH H).
Qed.

Lemma map_params_first (cs : string) (parts : list string) (p : string) :
  truthy_str cs = false ->
  find is_charset_param parts = Some p ->
  let cs' :=
    formatCharset (or_str (Some (trim (param_value p))) (Some "utf-8")) in
  truthy_str cs' = true ->
  map_params formatCharset cs parts = (cs', map (overwrite cs') parts).
Proof.
  intros Hcs Hfind cs' Hcs'.
  induction parts as [|q parts IH]; [discriminate|].
  cbn [find] in Hfind. cbn [map_params map]. rewrite charset_param_eq.
  unfold overwrite at 1.
  destruct (is_charset_param q).
  - injection Hfind as ->. cbn zeta. rewrite Hcs. fold cs'.
    now rewrite (map_params_set cs' parts Hcs').
  - now rewrite (IH Hfind).
Qed.

Variable this : Compiler.

Variables (t : Table) (hs : obj string) (parts : list string).
Hypothesis Ht : t = _table this.
Hypothesis Hhs : hs = or_obj (headers t).
Hypothesis Hparts : parts = content_type_parts hs.

Lemma handleCharset_eq :
  _handleCharset formatCharset this
  = let (cs, params) :=
      map_params formatCharset (formatCharset (charset t)) (tl parts) in
    let (cs, params) :=
      if truthy_str cs then (cs, params)
      else
        let cs := or_empty (or_str (charset t) (Some "utf-8")) in
        (cs, (params ++ [("charset=" ++ cs)%string])%list) in
    mkCompiler
      (mkTable (Some cs)
         (Some (obj_set hs "content-type"
                  (hd EmptyString parts ++ "; "
                   ++ String.concat "; " params)))
         (translations t))
      (_options this) cs.
Proof. subst. reflexivity. Qed.

(** With a charset in hand, every [charset=] parameter is overwritten and
    nothing is added. *)
Lemma handleCharset_set :
  truthy_str (formatCharset (charset t)) = true ->
  _handleCharset formatCharset this
  = mkCompiler
      (mkTable (Some (formatCharset (charset t)))
         (Some (obj_set hs "content-type"
                  (with_charset (formatCharset (charset t)) parts)))
         (translations t))
      (_options this) (formatCharset (charset t)).
Proof.
  intros H. rewrite handleCharset_eq, (map_params_set _ _ H), H.
  reflexivity.
Qed.

Lemma handleCharset_header (p : string) :
  truthy_str (formatCharset (charset t)) = false ->
  find is_charset_param (tl parts) = Some p ->
  let cs :=
    formatCharset (or_str (Some (trim (param_value p))) (Some "utf-8")) in
  truthy_str cs = true ->
  _handleCharset formatCharset this
  = mkCompiler
      (mkTable (Some cs)
         (Some (obj_set hs "content-type" (with_charset cs parts)))
         (translations t))
      (_options this) cs.
Proof.
  intros H Hfind cs Hcs.
  rewrite handleCharset_eq, (map_params_first _ _ _ H Hfind Hcs).
  fold cs. rewrite Hcs. reflexivity.
Qed.

Lemma handleCharset_default :
  truthy_str (formatCharset (charset t)) = false ->
  find is_charset_param (tl parts) = None ->
  let cs := or_empty (or_str (charset t) (Some "utf-8")) in
  _handleCharset formatCharset this
  = mkCompiler
      (mkTable (Some cs)
         (Some (obj_set hs "content-type"
                  (hd EmptyString parts ++ "; "
                   ++ String.concat "; "
                        (tl parts ++ [("charset=" ++ cs)%string])%list)))
         (translations t))
      (_options this) cs.
Proof.
  intros H Hfind cs.
  rewrite handleCharset_eq, (map_params_none _ _ Hfind), H. reflexivity.
Qed.

End HandleCharset.

Lemma header_value_set (v : string) :
  exists s, or_str (Some (trim v)) (Some "utf-8") = Some s /\ s <> EmptyString.
Proof.
  unfold or_str.
  destruct (String.eqb_spec (trim v) EmptyString) as [E|E].
  - exists "utf-8". split; [reflexivity | discriminate].
  - exists (trim v). split; [reflexivity | exact E].
Qed.

Lemma handleCharset_charset (formatCharset : option string -> string)
  (this : Compiler) :
  charset (_table (_handleCharset formatCharset this))
  = Some (_charset (_handleCharset formatCharset this)).
Proof.
  rewrite (handleCharset_eq formatCharset this _ _ _ eq_refl eq_refl eq_refl).
  destruct (map_params formatCharset _ _) as [cs params].
  destruct (truthy_str cs); reflexivity.
Qed.

Lemma new_Compiler_eq (formatCharset : option string -> string)
  (table : option Table) (options : option Options) :
  new_Compiler formatCharset table options
  = _handleCharset formatCharset
      (mkCompiler
         (mkTable (charset (table_or_empty table))
            (Some (or_obj (headers (table_or_empty table))))
            (Some (or_obj (translations (table_or_empty table)))))
         (with_defaults options) EmptyString).
Proof.
  unfold new_Compiler, with_defaults, table_or_empty.
  destruct options as [[[n|] [o|]]|]; reflexivity.
Qed.

(** ** Sorting *)

Lemma sort_insert_perm (cmp : Entry -> Entry -> Z) (x : Entry)
  (l : list Entry) : Permutation (x :: l) (sort_insert cmp x l).
Proof.
  induction l as [|y l IH]; simpl; [reflexivity|].
  destruct (cmp x y <=? 0)%Z; [reflexivity|].
  rewrite perm_swap. now apply perm_skip.
Qed.

Lemma Array_sort_perm (cmp : Entry -> Entry -> Z) (l : list Entry) :
  Permutation l (Array_sort cmp l).
Proof.
  induction l as [|x l IH]; simpl; [reflexivity|].
  rewrite <- sort_insert_perm. now apply perm_skip.
Qed.

Lemma consistent_on_perm (cmp : Entry -> Entry -> Z) (l l' : list Entry) :
  Permutation l l' -> consistent_on cmp l -> consistent_on cmp l'.
Proof.
  intros P [Htot Htr]. apply Permutation_sym in P. split.
  - intros a b Ha Hb.
    apply Htot; eapply Permutation_in; eassumption.
  - intros a b c Ha Hb Hc.
    apply Htr; eapply Permutation_in; eassumption.
Qed.

Lemma consistent_on_tail (cmp : Entry -> Entry -> Z) (x : Entry)
  (l : list Entry) : consistent_on cmp (x :: l) -> consistent_on cmp l.
Proof.
  intros [Htot Htr]. split.
  - intros a b Ha Hb. apply Htot; now right.
  - intros a b c Ha Hb Hc. apply Htr; now right.
Qed.

Lemma sort_insert_sorted (cmp : Entry -> Entry -> Z) (x : Entry)
  (l : list Entry) :
  consistent_on cmp (x :: l) ->
  StronglySorted (sort_le cmp) l ->
  StronglySorted (sort_le cmp) (sort_insert cmp x l).
Proof.
  induction l as [|y l IH]; intros Hc Hs; simpl.
  - constructor; constructor.
  - inversion Hs as [|? ? Hs' Hy]; subst.
    destruct Hc as [Htot Htr].
    destruct (Z.leb_spec (cmp x y) 0) as [Hxy|Hxy].
    + constructor; [exact Hs|]. constructor; [exact Hxy|].
      rewrite Forall_forall in Hy |- *. intros z Hz.
      apply (Htr x y z); simpl; auto.
    + assert (Hyx : sort_le cmp y x).
      { destruct (Htot x y) as [H|H]; simpl; auto.
        unfold sort_le in H. lia. }
      constructor.
      * apply IH; [|exact Hs']. split.
        -- intros a b Ha Hb. apply Htot; simpl in *; tauto.
        -- intros a b c Ha Hb Hc. apply Htr; simpl in *; tauto.
      * rewrite Forall_forall in Hy |- *. intros z Hz.
        apply (Permutation_in _ (Permutation_sym (sort_insert_perm cmp x l)))
          in Hz.
        destruct Hz as [<-|Hz]; [exact Hyx | now apply Hy].
Qed.

Lemma Array_sort_sorted (cmp : Entry -> Entry -> Z) (l : list Entry) :
  consistent_on cmp l -> StronglySorted (sort_le cmp) (Array_sort cmp l).
Proof.
  induction l as [|x l IH]; intros Hc; simpl; [constructor|].
  apply sort_insert_sorted.
  - apply (consistent_on_perm cmp (x :: l)); [|exact Hc].
    apply perm_skip, Array_sort_perm.
  - apply IH. now apply consistent_on_tail in Hc.
Qed.

(** The order of [compare] on entries that have a [msgid]. *)

Lemma ascii_compare_N (a b : ascii) :
  Ascii.compare a b = N.compare (N_of_ascii a) (N_of_ascii b).
Proof. reflexivity. Qed.

Lemma string_compare_trans (a b c : string) :
  String.compare a b <> Gt -> String.compare b c <> Gt ->
  String.compare a c <> Gt.
Proof.
  revert b c. induction a as [|x a IH]; intros [|y b] [|z c]; simpl;
    try congruence.
  rewrite !ascii_compare_N.
  destruct (N.compare_spec (N_of_ascii x) (N_of_ascii y));
    destruct (N.compare_spec (N_of_ascii y) (N_of_ascii z));
    destruct (N.compare_spec (N_of_ascii x) (N_of_ascii z));
    try congruence; try lia.
  apply IH.
Qed.

Lemma js_gt_false (x y : string) :
  js_gt (Some x) (Some y) = false <-> String.compare x y <> Gt.
Proof.
  unfold js_gt, String.ltb. rewrite String.compare_antisym.
  destruct (String.compare x y); simpl; split; congruence.
Qed.

Lemma compare_le (a b : Entry) (x y : string) :
  msgid a = Some x -> msgid b = Some y ->
  sort_le compare a b <-> String.compare x y <> Gt.
Proof.
  intros Ha Hb. unfold sort_le, compare. rewrite Ha, Hb.
  rewrite <- js_gt_false.
  destruct (js_gt (Some x) (Some y)); [split; [lia | congruence]|].
  destruct (js_gt (Some y) (Some x)); split; (lia || reflexivity).
Qed.

Lemma compare_consistent (l : list Entry) :
  Forall (fun e => msgid e <> None) l -> consistent_on compare l.
Proof.
  intros H. rewrite Forall_forall in H.
  assert (Hid : forall a, In a l -> exists x, msgid a = Some x).
  { intros a Ha. specialize (H a Ha).
    destruct (msgid a) as [x|]; [now exists x | congruence]. }
  split.
  - intros a b Ha Hb.
    destruct (Hid a Ha) as [x Hx]. destruct (Hid b Hb) as [y Hy].
    rewrite (compare_le a b x y Hx Hy), (compare_le b a y x Hy Hx).
    rewrite (String.compare_antisym y x).
    destruct (String.compare x y); simpl;
      (left; congruence) || (right; congruence).
  - intros a b c Ha Hb Hc.
    destruct (Hid a Ha) as [x Hx]. destruct (Hid b Hb) as [y Hy].
    destruct (Hid c Hc) as [z Hz].
    rewrite (compare_le a b x y Hx Hy), (compare_le b c y z Hy Hz),
      (compare_le a c x z Hx Hz).
    apply string_compare_trans.
Qed.

(** A consistent comparator orders the entries. *)
Lemma consistent_comparator_on (cmp : Entry -> Entry -> Z) (l : list Entry) :
  consistent_comparator cmp l -> consistent_on cmp l.
Proof.
  intros [Hrefl [Hsym [Heq [Hlt Hgt]]]].
  assert (Hanti : forall a b, In a l -> In b l ->
                    (0 < cmp a b)%Z -> (cmp b a < 0)%Z).
  { intros a b Ha Hb Hab.
    destruct (Z.lt_trichotomy (cmp b a) 0) as [H|[H|H]]; [exact H| |].
    - pose proof (Hsym b a Hb Ha H). lia.
    - pose proof (Hgt a b a Ha Hb Ha Hab H). pose proof (Hrefl a Ha). lia. }
  assert (Hanti' : forall a b, In a l -> In b l ->
                     (cmp a b < 0)%Z -> (0 < cmp b a)%Z).
  { intros a b Ha Hb Hab.
    destruct (Z.lt_trichotomy (cmp b a) 0) as [H|[H|H]]; [| |exact H].
    - pose proof (Hlt a b a Ha Hb Ha Hab H). pose proof (Hrefl a Ha). lia.
    - pose proof (Hsym b a Hb Ha H). lia. }
  split; unfold sort_le.
  - intros a b Ha Hb.
    destruct (Z.lt_trichotomy (cmp a b) 0) as [H|[H|H]]; [left; lia.. |].
    right. pose proof (Hanti a b Ha Hb H). lia.
  - intros a b c Ha Hb Hc Hab Hbc.
    destruct (Z.lt_trichotomy (cmp a c) 0) as [H|[H|H]]; [lia.. |].
    exfalso. pose proof (Hanti a c Ha Hc H) as Hca.
    destruct (Z.lt_trichotomy (cmp a b) 0) as [H1|[H1|H1]]; [| |lia];
      destruct (Z.lt_trichotomy (cmp b c) 0) as [H2|[H2|H2]]; try lia.
    + pose proof (Hlt a b c Ha Hb Hc H1 H2). lia.
    + pose proof (Hlt c a b Hc Ha Hb Hca H1) as Hcb.
      pose proof (Hsym b c Hb Hc H2). lia.
    + pose proof (Hlt b c a Hb Hc Ha H2 Hca) as Hba.
      pose proof (Hsym a b Ha Hb H1). lia.
    + pose proof (Heq a b c Ha Hb Hc H1 H2). lia.
Qed.

Lemma string_compare_refl (x : string) : String.compare x x = Eq.
Proof.
  pose proof (String.compare_antisym x x) as H.
  destruct (String.compare x x); [reflexivity | discriminate..].
Qed.

Lemma string_compare_lt_trans (x y z : string) :
  String.compare x y = Lt -> String.compare y z = Lt ->
  String.compare x z = Lt.
Proof.
  intros Hxy Hyz.
  assert (H : String.compare x z <> Gt)
    by (apply (string_compare_trans x y z); congruence).
  destruct (String.compare x z) eqn:E; [|reflexivity | congruence].
  apply String.compare_eq_iff in E. subst z.
  rewrite (String.compare_antisym x y), Hyz in Hxy. discriminate.
Qed.

Lemma compare_sign (a b : Entry) (x y : string) :
  msgid a = Some x -> msgid b = Some y ->
  compare a b
  = match String.compare x y with
    | Eq => 0%Z
    | Lt => (-1)%Z
    | Gt => 1%Z
    end.
Proof.
  intros Ha Hb. unfold compare, js_gt, String.ltb. rewrite Ha, Hb.
  rewrite (String.compare_antisym x y).
  destruct (String.compare y x); reflexivity.
Qed.

(** [compare] is a consistent comparator on entries that all have a
    [msgid]. *)
Lemma compare_consistent_comparator (l : list Entry) :
  Forall (fun e => msgid e <> None) l -> consistent_comparator compare l.
Proof.
  intros H. rewrite Forall_forall in H.
  assert (Hid : forall a, In a l -> exists x, msgid a = Some x).
  { intros a Ha. specialize (H a Ha).
    destruct (msgid a) as [x|]; [now exists x | congruence]. }
  split; [|split; [|split; [|split]]].
  - intros a Ha. destruct (Hid a Ha) as [x Hx].
    now rewrite (compare_sign a a x x Hx Hx), string_compare_refl.
  - intros a b Ha Hb.
    destruct (Hid a Ha) as [x Hx]. destruct (Hid b Hb) as [y Hy].
    rewrite (compare_sign a b x y Hx Hy), (compare_sign b a y x Hy Hx).
    rewrite (String.compare_antisym x y).
    destruct (String.compare y x); simpl; intros; (reflexivity || lia).
  - intros a b c Ha Hb Hc.
    destruct (Hid a Ha) as [x Hx]. destruct (Hid b Hb) as [y Hy].
    destruct (Hid c Hc) as [z Hz].
    rewrite (compare_sign a b x y Hx Hy), (compare_sign b c y z Hy Hz),
      (compare_sign a c x z Hx Hz).
    destruct (String.compare x y) eqn:Exy; try lia.
    destruct (String.compare y z) eqn:Eyz; try lia.
    apply String.compare_eq_iff in Exy, Eyz. subst.
    now rewrite string_compare_refl.
  - intros a b c Ha Hb Hc.
    destruct (Hid a Ha) as [x Hx]. destruct (Hid b Hb) as [y Hy].
    destruct (Hid c Hc) as [z Hz].
    rewrite (compare_sign a b x y Hx Hy), (compare_sign b c y z Hy Hz),
      (compare_sign a c x z Hx Hz).
    destruct (String.compare x y) eqn:Exy; try lia.
    destruct (String.compare y z) eqn:Eyz; try lia.
    now rewrite (string_compare_lt_trans x y z Exy Eyz).
  - intros a b c Ha Hb Hc.
    destruct (Hid a Ha) as [x Hx]. destruct (Hid b Hb) as [y Hy].
    destruct (Hid c Hc) as [z Hz].
    rewrite (compare_sign a b x y Hx Hy), (compare_sign b c y z Hy Hz),
      (compare_sign a c x z Hx Hz).
    destruct (String.compare x y) eqn:Exy; try lia.
    destruct (String.compare y z) eqn:Eyz; try lia.
    assert (Ezy : String.compare z y = Lt)
      by (rewrite (String.compare_antisym z y), Eyz; reflexivity).
    assert (Eyx : String.compare y x = Lt)
      by (rewrite (String.compare_antisym y x), Exy; reflexivity).
    rewrite (String.compare_antisym x z),
      (string_compare_lt_trans z y x Ezy Eyx). simpl. lia.
Qed.

(** A consistent comparator stays one with its arguments swapped: the
    comparator of the descending order. *)
Lemma consistent_comparator_swap (cmp : Entry -> Entry -> Z)
  (l : list Entry) :
  consistent_comparator cmp l ->
  consistent_comparator (fun a b => cmp b a) l.
Proof.
  intros [Hrefl [Hsym [Heq [Hlt Hgt]]]].
  split; [exact Hrefl|]. split; [|split; [|split]].
  - intros a b Ha Hb. now apply Hsym.
  - intros a b c Ha Hb Hc Hab Hbc. now apply (Heq c b a).
  - intros a b c Ha Hb Hc Hab Hbc. now apply (Hlt c b a).
  - intros a b c Ha Hb Hc Hab Hbc. now apply (Hgt c b a).
Qed.

(** ** [Object.keys] *)

Lemma insert_index_perm (x : N * string) (l : list (N * string)) :
  Permutation (x :: l) (insert_index x l).
Proof.
  induction l as [|y l IH]; simpl; [reflexivity|].
  destruct (fst x <=? fst y)%N; [reflexivity|].
  rewrite perm_swap. now apply perm_skip.
Qed.

Lemma index_keys_perm (ks : list string) :
  Permutation (map snd (index_keys ks)) (filter is_array_index ks).
Proof.
  induction ks as [|k ks IH]; simpl; [reflexivity|].
  unfold is_array_index at 1.
  destruct (array_index k) as [n|]; [|exact IH].
  rewrite <- (Permutation_map snd (insert_index_perm (n, k) (index_keys ks))).
  simpl. now apply perm_skip.
Qed.

Lemma filter_split_perm {A} (p : A -> bool) (l : list A) :
  Permutation (filter p l ++ filter (fun x => negb (p x)) l)%list l.
Proof.
  induction l as [|x l IH]; simpl; [reflexivity|].
  destruct (p x); simpl.
  - now apply perm_skip.
  - rewrite <- Permutation_middle. now apply perm_skip.
Qed.

Lemma Object_keys_perm {A} (o : obj A) :
  Permutation (Object_keys o) (map fst o).
Proof.
  unfold Object_keys. rewrite index_keys_perm. apply filter_split_perm.
Qed.

Lemma Object_keys_no_index {A} (o : obj A) :
  Forall (fun kv => is_array_index (fst kv) = false) o ->
  Object_keys o = map fst o.
Proof.
  intros H. unfold Object_keys.
  assert (Hi : index_keys (map fst o) = []).
  { induction H as [|[k v] o Hk _ IH]; [reflexivity|]. simpl in *.
    unfold is_array_index in Hk.
    destruct (array_index k); [discriminate | exact IH]. }
  assert (Hf : filter (fun k => negb (is_array_index k)) (map fst o)
               = map fst o).
  { clear Hi. induction H as [|[k v] o Hk _ IH]; [reflexivity|]. simpl in *.
    rewrite Hk. simpl. now rewrite IH. }
  now rewrite Hi, Hf.
Qed.

Lemma obj_get_In {A} (o : obj A) (k : string) (v : A) :
  obj_get o k = Some v -> In (k, v) o.
Proof.
  induction o as [|[k' v'] o IH]; simpl; [discriminate|].
  destruct (String.eqb_spec k' k) as [->|_].
  - intros [= ->]. now left.
  - intros H. right. now apply IH.
Qed.

Lemma obj_get_wf {A} (o : obj A) (k : string) (v : A) :
  wf_obj o -> In (k, v) o -> obj_get o k = Some v.
Proof.
  unfold wf_obj. induction o as [|[k' v'] o IH]; simpl; [tauto|].
  intros Hnd [E|Hin].
  - injection E as -> ->. now rewrite String.eqb_refl.
  - inversion Hnd as [|? ? Hk Hnd']; subst.
    destruct (String.eqb_spec k' k) as [->|_]; [|now apply IH].
    exfalso. apply Hk. apply (in_map fst) in Hin. exact Hin.
Qed.

Lemma flat_map_eq_in {A B} (f g : A -> list B) (l : list A) :
  (forall x, In x l -> f x = g x) -> flat_map f l = flat_map g l.
Proof.
  induction l as [|x l IH]; intros H; simpl; [reflexivity|].
  rewrite (H x) by now left. rewrite IH; [reflexivity|].
  intros y Hy. apply H. now right.
Qed.

Lemma flat_map_perm_in {A B} (f g : A -> list B) (l : list A) :
  (forall x, In x l -> Permutation (f x) (g x)) ->
  Permutation (flat_map f l) (flat_map g l).
Proof.
  induction l as [|x l IH]; intros H; simpl; [reflexivity|].
  apply Permutation_app; [apply H; now left|].
  apply IH. intros y Hy. apply H. now right.
Qed.

Lemma flat_map_of_map {A B C} (f : B -> list C) (g : A -> B) (l : list A) :
  flat_map f (map g l) = flat_map (fun x => f (g x)) l.
Proof.
  induction l as [|x l IH]; simpl; [reflexivity | now rewrite IH].
Qed.

(** ** Enumeration order and insertion order *)

Lemma keys_context_listed (msgctxt : string) (o : obj EntryValue) :
  wf_obj o ->
  flat_map
    (fun msgid =>
       match obj_get o msgid with
       | Some (EntryObj e) => if is_pseudo msgctxt msgid then [] else [e]
       | _ => []
       end) (map fst o)
  = listed_context msgctxt o.
Proof.
  intros Hwf. rewrite flat_map_of_map. unfold listed_context.
  apply flat_map_eq_in. intros [k v] Hin. cbn [fst snd].
  now rewrite (obj_get_wf o k v Hwf Hin).
Qed.

Lemma enumerated_context_perm (msgctxt : string) (o : obj EntryValue) :
  wf_obj o ->
  Permutation (enumerated_context msgctxt o) (listed_context msgctxt o).
Proof.
  intros Hwf. rewrite <- (keys_context_listed msgctxt o Hwf).
  unfold enumerated_context. now rewrite Object_keys_perm.
Qed.

Lemma enumerated_context_listed (msgctxt : string) (o : obj EntryValue) :
  wf_obj o ->
  Forall (fun kv => is_array_index (fst kv) = false) o ->
  enumerated_context msgctxt o = listed_context msgctxt o.
Proof.
  intros Hwf Hno. rewrite <- (keys_context_listed msgctxt o Hwf).
  unfold enumerated_context. now rewrite Object_keys_no_index.
Qed.

Lemma keys_table_enumerated (t : obj ContextValue) :
  wf_obj t ->
  flat_map
    (fun msgctxt =>
       match obj_get t msgctxt with
       | Some (ContextObj o) => enumerated_context msgctxt o
       | _ => []
       end) (map fst t)
  = flat_map
      (fun kv =>
         match snd kv with
         | ContextObj o => enumerated_context (fst kv) o
         | ContextPrim _ => []
         end) t.
Proof.
  intros Hwf. rewrite flat_map_of_map.
  apply flat_map_eq_in. intros [k v] Hin. cbn [fst snd].
  now rewrite (obj_get_wf t k v Hwf Hin).
Qed.

Lemma enumerated_entries_perm (t : obj ContextValue) :
  wf_table t -> Permutation (enumerated_entries t) (listed_entries t).
Proof.
  intros [Hwf Hctx]. unfold enumerated_entries.
  rewrite Object_keys_perm, (keys_table_enumerated t Hwf).
  unfold listed_entries. apply flat_map_perm_in.
  rewrite Forall_forall in Hctx. intros [k v] Hin.
  specialize (Hctx _ Hin). simpl in *.
  destruct v as [p|o]; [reflexivity|]. now apply enumerated_context_perm.
Qed.

Lemma enumerated_entries_listed (t : obj ContextValue) :
  wf_table t -> no_index_keys t -> enumerated_entries t = listed_entries t.
Proof.
  intros [Hwf Hctx] Hno. unfold enumerated_entries.
  rewrite Object_keys_no_index.
  - rewrite (keys_table_enumerated t Hwf). unfold listed_entries.
    apply flat_map_eq_in.
    rewrite Forall_forall in Hctx. unfold no_index_keys in Hno.
    rewrite Forall_forall in Hno. intros [k v] Hin.
    specialize (Hctx _ Hin). destruct (Hno _ Hin) as [_ Hv]. simpl in *.
    destruct v as [p|o]; [reflexivity|].
    now apply enumerated_context_listed.
  - unfold no_index_keys in Hno. rewrite Forall_forall in Hno |- *.
    intros kv Hin. now destruct (Hno kv Hin).
Qed.

(** ** The collection loops of [compile] *)

Lemma typeof_not_null (p : jsprim) :
  p <> JNull -> (typeof_prim p =? "object")%string = false.
Proof.
  destruct p; simpl; congruence.
Qed.

Lemma flat_map_map_some {A B} (f : A -> list (option B)) (g : A -> list B)
  (l : list A) :
  (forall x, In x l -> f x = map Some (g x)) ->
  flat_map f l = map Some (flat_map g l).
Proof.
  induction l as [|x l IH]; intros H; simpl; [reflexivity|].
  rewrite map_app, (H x) by now left. rewrite IH; [reflexivity|].
  intros y Hy. apply H. now right.
Qed.

Lemma collect_context_ok (msgctxt : string) (o : obj EntryValue) :
  Forall (fun kv => not_null_entry (snd kv)) o ->
  collect_context msgctxt o = map Some (enumerated_context msgctxt o).
Proof.
  intros Hnn. rewrite Forall_forall in Hnn.
  unfold collect_context, enumerated_context.
  apply flat_map_map_some. intros k _.
  destruct (obj_get o k) as [v|] eqn:Hk; [|reflexivity].
  apply obj_get_In in Hk. specialize (Hnn _ Hk). simpl in Hnn.
  unfold is_pseudo. destruct v as [p|e]; simpl.
  - rewrite typeof_not_null; [reflexivity|].
    intros ->. now apply Hnn.
  - destruct ((msgctxt =? EmptyString) && (k =? EmptyString))%string;
      reflexivity.
Qed.

Lemma collect_ok (t : obj ContextValue) (keys : list string) :
  no_null t ->
  collect t keys
  = Ok (map Some
          (flat_map
             (fun msgctxt =>
                match obj_get t msgctxt with
                | Some (ContextObj o) => enumerated_context msgctxt o
                | _ => []
                end) keys)).
Proof.
  intros Hnn. unfold no_null in Hnn. rewrite Forall_forall in Hnn.
  induction keys as [|k keys IH]; [reflexivity|]. simpl.
  destruct (obj_get t k) as [v|] eqn:Hk; [|exact IH].
  apply obj_get_In in Hk. specialize (Hnn _ Hk). simpl in Hnn.
  destruct v as [p|o].
  - now rewrite typeof_not_null.
  - rewrite IH. simpl. now rewrite map_app, collect_context_ok.
Qed.

Lemma entries_or_throw_some (l : list Entry) :
  entries_or_throw (map Some l) = Ok l.
Proof.
  induction l as [|e l IH]; simpl; [reflexivity | now rewrite IH].
Qed.

Lemma compile_blocks_ok (foldLine : string -> Z -> list string)
  (generateHeader : obj string -> string) (this : Compiler) :
  no_null (or_obj (translations (_table this))) ->
  compile_blocks foldLine generateHeader this
  = Ok (_drawBlock foldLine this
          (header_entry (or_obj (translations (_table this))))
          (Some (mkEntry None None None None
                   (Some (MsgstrString
                            (generateHeader
                               (or_obj (headers (_table this))))))))
        :: map (fun r => _drawBlock foldLine this r None)
             (sort_response (sort (_options this))
                (enumerated_entries (or_obj (translations (_table this)))))).
Proof.
  intros Hnn. unfold compile_blocks.
  rewrite (collect_ok _ _ Hnn). cbn [bind].
  rewrite entries_or_throw_some. reflexivity.
Qed.

Lemma compile_ok (foldLine : string -> Z -> list string)
  (generateHeader : obj string -> string) (this : Compiler)
  (blocks : list string) :
  compile_blocks foldLine generateHeader this = Ok blocks ->
  exists buf,
    compile foldLine generateHeader this = Ok buf
    /\ buffer_text buf = String.concat nlnl blocks.
Proof.
  intros H. unfold compile. rewrite H. cbn [bind].
  destruct ((_charset this =? "utf-8") || (_charset this =? "ascii"))%string;
    eexists; split; reflexivity.
Qed.


Lemma new_Compiler_table (formatCharset : option string -> string)
  (table : option Table) (options : option Options) :
  translations (_table (new_Compiler formatCharset table options))
  = Some (or_obj (translations (table_or_empty table)))
  /\ _options (new_Compiler formatCharset table options)
     = with_defaults options.
Proof.
  rewrite new_Compiler_eq.
  rewrite (handleCharset_eq formatCharset _ _ _ _ eq_refl eq_refl eq_refl).
  destruct (map_params formatCharset _ _) as [cs params].
  destruct (truthy_str cs); split; reflexivity.
Qed.

Lemma sort_response_perm (s : option SortOption) (l : list Entry) :
  Permutation l (sort_response s l).
Proof.
  destruct s as [[p|f]|]; simpl; try apply Array_sort_perm.
  destruct p as [| |[|]| |]; try apply Array_sort_perm. reflexivity.
Qed.

Lemma sort_response_nil (s : option SortOption) : sort_response s [] = [].
Proof.
  destruct s as [[p|f]|]; try reflexivity.
  destruct p as [| |[|]| |]; reflexivity.
Qed.

Lemma truthy_not_false (p : jsprim) :
  truthy_prim p = true ->
  forall l, sort_response (Some (SortPrim p)) l = Array_sort compare l.
Proof.
  destruct p as [| |[|]| |]; simpl; intros H l; congruence.
Qed.


Lemma compilePO_blocks (formatCharset : option string -> string)
  (foldLine : string -> Z -> list string)
  (generateHeader : obj string -> string)
  (table : option Table) (options : option Options) :
  let trs := or_obj (translations (table_or_empty table)) in
  let compiler := new_Compiler formatCharset table options in
  no_null trs ->
  exists buf,
    returned (compilePO formatCharset foldLine generateHeader table options)
    = Ok buf
    /\ buffer_text buf
       = String.concat nlnl
           (_drawBlock foldLine compiler (header_entry trs)
              (Some (mkEntry None None None None
                       (Some (MsgstrString
                                (generateHeader
                                   (or_obj (headers (_table compiler))))))))
            :: map (fun e => _drawBlock foldLine compiler e None)
                 (sort_response (sort (with_defaults options))
                    (enumerated_entries trs))).
Proof.
  intros trs compiler Hnn.
  destruct (new_Compiler_table formatCharset table options) as [Ht Ho].
  fold compiler in Ht, Ho.
  assert (Htrs : or_obj (translations (_table compiler)) = trs)
    by now rewrite Ht.
  pose proof (compile_blocks_ok foldLine generateHeader compiler) as Hb.
  rewrite Htrs, Ho in Hb. specialize (Hb Hnn).
  destruct (compile_ok foldLine generateHeader compiler _ Hb)
    as [buf [Hbuf Htext]].
  exists buf. split; [exact Hbuf | exact Htext].
Qed.

(** C4, as amended: for a table that holds no [null] context or entry,
    the output has one block per entry.  With a truthy [sort] option the
    entries are sorted: by the supplied comparator when [sort] is a function
    that is a consistent comparator for the entries, in the sense
    ECMAScript asks of the argument of [Array.prototype.sort]; and
    otherwise, when every entry has a [msgid], in non-decreasing [msgid]
    order under [compare].  With [sort === false] (the default) they appear
    in the order [Object.keys] enumerates the contexts and the msgids, that
    is, keys that are array indices first in ascending numeric order and
    the other keys in insertion order, which is the insertion order whenever
    no key is an array index. *)
Theorem compile_entry_order (formatCharset : option string -> string)
  (foldLine : string -> Z -> list string)
  (generateHeader : obj string -> string)
  (table : option Table) (options : option Options) :
  let trs := or_obj (translations (table_or_empty table)) in
  let compiler := new_Compiler formatCharset table options in
  no_null trs -> wf_table trs ->
  exists buf entries,
    returned (compilePO formatCharset foldLine generateHeader table options)
    = Ok buf
    /\ buffer_text buf
       = String.concat nlnl
           (_drawBlock foldLine compiler (header_entry trs)
              (Some (mkEntry None None None None
                       (Some (MsgstrString
                                (generateHeader
                                   (or_obj (headers (_table compiler))))))))
            :: map (fun e => _drawBlock foldLine compiler e None) entries)
    /\ Permutation entries (listed_entries trs)
    /\ (forall s, sort (with_defaults options) = Some s ->
        truthy_sort s = true ->
        (forall f, s = SortFunction f ->
           consistent_comparator f (listed_entries trs) ->
           StronglySorted (sort_le f) entries)
        /\ ((forall f, s <> SortFunction f) ->
            Forall (fun e => msgid e <> None) (listed_entries trs) ->
            StronglySorted (sort_le compare) entries))
    /\ (sort (with_defaults options) = Some (SortPrim (JBool false)) ->
        entries = enumerated_entries trs
        /\ (no_index_keys trs -> entries = listed_entries trs)).
Proof.
  intros trs compiler Hnn Hwf.
  destruct (compilePO_blocks formatCharset foldLine generateHeader
              table options Hnn) as [buf [Hbuf Htext]].
  fold trs compiler in Htext.
  pose proof (enumerated_entries_perm trs Hwf) as Hperm.
  exists buf,
    (sort_response (sort (with_defaults options)) (enumerated_entries trs)).
  split; [exact Hbuf|]. split; [exact Htext|]. split; [|split].
  - rewrite <- sort_response_perm. exact Hperm.
  - intros s Hs Htruthy. rewrite Hs. split.
    + intros f -> Hc. simpl. apply Array_sort_sorted.
      apply (consistent_on_perm f (listed_entries trs));
        [|now apply consistent_comparator_on].
      now apply Permutation_sym.
    + intros Hnf Hid. destruct s as [p|f]; [|now destruct (Hnf f)].
      simpl in Htruthy. rewrite (truthy_not_false p Htruthy).
      apply Array_sort_sorted, compare_consistent.
      rewrite Forall_forall in Hid |- *. intros e He. apply Hid.
      eapply Permutation_in; eassumption.
  - intros Hs. rewrite Hs. simpl. split; [reflexivity|].
    intros Hno. now apply enumerated_entries_listed.
Qed.


(** C9, where the code departs from it: a context or an entry that is
    [null] is not skipped, since [typeof null] is ["object"]; the call
    throws a TypeError, in [Object.keys] for a context and in [_drawBlock]
    (or [compare]) for an entry, whatever the options and the shared
    functions are. *)
Theorem compilePO_null_throws (formatCharset : option string -> string)
  (foldLine : string -> Z -> list string)
  (generateHeader : obj string -> string) (options : option Options) :
  returned
    (compilePO formatCharset foldLine generateHeader
       (Some (mkTable None None (Some [("menu", ContextPrim JNull)])))
       options)
  = TypeError
  /\ returned
       (compilePO formatCharset foldLine generateHeader
          (Some (mkTable None None
                   (Some [("menu", ContextObj [("File", EntryPrim JNull)])])))
          options)
     = TypeError.
Proof.
  split.
  - unfold compilePO. cbn [returned]. unfold compile, compile_blocks.
    destruct (new_Compiler_table formatCharset
                (Some (mkTable None None (Some [("menu", ContextPrim JNull)])))
                options) as [-> _].
    reflexivity.
  - unfold compilePO. cbn [returned]. unfold compile, compile_blocks.
    destruct (new_Compiler_table formatCharset
                (Some (mkTable None None
                         (Some [("menu",
                                 ContextObj [("File", EntryPrim JNull)])])))
                options) as [-> _].
    reflexivity.
Qed.

(** C2, where the code departs from it: for a table whose [charset] is set
    and whose [content-type] header has no [charset=] parameter, the header
    is written back, and handed to [generateHeader], as ["text/plain; "]: no
    [charset=] parameter is added. *)
Theorem charset_not_injected (formatCharset : option string -> string)
  (foldLine : string -> Z -> list string)
  (generateHeader : obj string -> string) (options : option Options) :
  let table :=
    mkTable (Some "utf-8") (Some [("content-type", "text/plain")])
      (Some []) in
  let out := compilePO formatCharset foldLine generateHeader (Some table)
               options in
  let compiler := new_Compiler formatCharset (Some table) options in
  formatCharset (Some "utf-8") <> EmptyString ->
  table_after out
  = Some (mkTable (Some (formatCharset (Some "utf-8")))
            (Some [("content-type", "text/plain; ")]) (Some []))
  /\ exists buf,
       returned out = Ok buf
       /\ buffer_text buf
          = _drawBlock foldLine compiler empty_entry
              (Some (mkEntry None None None None
                       (Some (MsgstrString
                                (generateHeader
                                   [("content-type", "text/plain; ")]))))).
Proof.
  intros table out compiler Hfc. apply truthy_str_true in Hfc.
  assert (E : compiler
              = mkCompiler
                  (mkTable (Some (formatCharset (Some "utf-8")))
                     (Some [("content-type", "text/plain; ")]) (Some []))
                  (with_defaults options) (formatCharset (Some "utf-8"))).
  { unfold compiler. rewrite new_Compiler_eq.
    exact (handleCharset_set formatCharset
             (mkCompiler table (with_defaults options) EmptyString)
             table (or_obj (headers table))
             (content_type_parts (or_obj (headers table)))
             eq_refl eq_refl eq_refl Hfc). }
  unfold out, compilePO. fold compiler. cbn [table_after returned].
  split; [now rewrite E|].
  destruct (compile_ok foldLine generateHeader compiler
              [_drawBlock foldLine compiler empty_entry
                 (Some (mkEntry None None None None
                          (Some (MsgstrString
                                   (generateHeader
                                      [("content-type", "text/plain; ")])))))])
    as [buf [Hbuf Htext]].
  { assert (Ht : _table compiler
                 = mkTable (Some (formatCharset (Some "utf-8")))
                     (Some [("content-type", "text/plain; ")]) (Some []))
      by now rewrite E.
    rewrite compile_blocks_ok; rewrite Ht; cbn [translations headers or_obj];
      [|constructor].
    change (header_entry []) with empty_entry.
    change (enumerated_entries []) with (@nil Entry).
    now rewrite sort_response_nil. }
  exists buf. split; [exact Hbuf | exact Htext].
Qed.

(** C3, as amended: [compilePO] works on no state but its two arguments and
    leaves the contexts and entries of [translations] as they are, but it
    writes to the objects it is given.  In the table, [headers] and
    [translations] are set to empty objects when missing, [charset] is set to
    the resolved charset and [headers["content-type"]] is rewritten, the
    other headers staying as they are; in the options object, a missing
    [foldLength] is set to 76 and a missing [sort] to [false]. *)
Theorem compilePO_effects (formatCharset : option string -> string)
  (foldLine : string -> Z -> list string)
  (generateHeader : obj string -> string)
  (table : option Table) (options : option Options) :
  let out := compilePO formatCharset foldLine generateHeader table options in
  let compiler := new_Compiler formatCharset table options in
  options_after out = option_map (fun _ => with_defaults options) options
  /\ exists content_type,
       table_after out
       = option_map
           (fun t =>
              mkTable (Some (_charset compiler))
                (Some (obj_set (or_obj (headers t)) "content-type"
                         content_type))
                (Some (or_obj (translations t))))
           table
       /\ forall t k, table = Some t -> k <> "content-type" ->
            obj_get (obj_set (or_obj (headers t)) "content-type" content_type)
              k
            = obj_get (or_obj (headers t)) k.
Proof.
  intros out compiler. unfold out, compilePO. fold compiler.
  cbn [options_after table_after]. split.
  - destruct (new_Compiler_table formatCharset table options) as [_ Ho].
    fold compiler in Ho. rewrite Ho. now destruct options.
  - unfold compiler. rewrite new_Compiler_eq.
    rewrite (handleCharset_eq formatCharset _ _ _ _ eq_refl eq_refl eq_refl).
    destruct (map_params formatCharset _ _) as [cs params].
    destruct (truthy_str cs); eexists; (split;
      [destruct table; reflexivity
      |intros t k _ Hk; now apply obj_get_set_other]).
Qed.

(** * The properties at concrete inputs

    The shared functions are instantiated with [Shared.formatCharset],
    [Shared.foldLine] and [Shared.generateHeader]; where a folding that
    splits a short text is needed, with [fold_at_newlines]. *)

Lemma kept_whole_default (v : string) :
  (String.length v <=? 76)%nat = true ->
  kept_whole Shared.foldLine (new_Compiler Shared.formatCharset None None) v.
Proof.
  intros Hv n Hn Hpos. injection Hn as <-.
  unfold Shared.foldLine. cbn [Z.leb Z.compare].
  change (Z.to_nat 76) with 76%nat.
  destruct (String.length v) as [|m] eqn:Hlen.
  - simpl. destruct v; [split; [lia | reflexivity] | discriminate].
  - cbn [Shared.fold_pieces]. rewrite Hlen, Hv.
    split; [simpl; lia | reflexivity].
Defined.

Lemma addPOString_folding_witness :
  _addPOString Shared.foldLine
    (mkCompiler (mkTable None None None) (mkOptions (Some 10%Z) None)
       EmptyString)
    "msgid" (Some "hello world, this is long")
  = String.concat nl
      [ "msgid " ++ quoted EmptyString; quoted "hello "; quoted "world, ";
        quoted "this is "; quoted "long" ]
  /\ _addPOString Shared.foldLine
       (mkCompiler (mkTable None None None) (mkOptions (Some 10%Z) None)
          EmptyString)
       "msgid" (Some "hello")
     = "msgid " ++ quoted "hello"
  /\ (2 <= List.length (Shared.foldLine "hello world, this is long" 10))%nat
  /\ _addPOString Shared.foldLine
       (mkCompiler (mkTable None None None) (mkOptions (Some 0%Z) None)
          EmptyString)
       "msgid" (Some "hello world, this is long")
     = "msgid " ++ quoted "hello world, this is long".
Proof.
  split; [|split; [|split]].
  - refine (eq_trans
      (proj1
         (addPOString_folding Shared.foldLine
            (mkCompiler (mkTable None None None) (mkOptions (Some 10%Z) None)
               EmptyString)
            "msgid" (Some "hello world, this is long") 10%Z eq_refl)
         _ _) _).
    + lia.
    + vm_compute. lia.
    + vm_compute. reflexivity.
  - refine (eq_trans
      (proj1 (proj2
         (addPOString_folding Shared.foldLine
            (mkCompiler (mkTable None None None) (mkOptions (Some 10%Z) None)
               EmptyString)
            "msgid" (Some "hello") 10%Z eq_refl))
         _ _) _).
    + lia.
    + vm_compute. lia.
    + vm_compute. reflexivity.
  - refine (proj1 (proj2 (proj2
      (addPOString_folding Shared.foldLine
         (mkCompiler (mkTable None None None) (mkOptions (Some 10%Z) None)
            EmptyString)
         "msgid" (Some "hello world, this is long") 10%Z eq_refl)))
      _ _ _ _).
    + lia.
    + vm_compute. reflexivity.
    + reflexivity.
    + vm_compute. repeat constructor; discriminate.
  - refine (proj2 (proj2 (proj2
      (addPOString_folding Shared.foldLine
         (mkCompiler (mkTable None None None) (mkOptions (Some 0%Z) None)
            EmptyString)
         "msgid" (Some "hello world, this is long") 0%Z eq_refl)))
      _).
    lia.
Defined.

(** The claim fails as it is stated: a value of four characters, far
    shorter than [foldLength], is not rendered on a single line when
    [foldLine] splits it, here after its escaped newline; the pieces join
    back to the value and none is longer than the width. *)
Lemma addPOString_folding_counterexample :
  escape ("a" ++ str1 LF ++ "b") = "a\nb"
  /\ (Z.of_nat (String.length "a\nb") <= 76)%Z
  /\ fold_at_newlines "a\nb" 76 = ["a\n"; "b"]
  /\ String.concat EmptyString (fold_at_newlines "a\nb" 76) = "a\nb"
  /\ _addPOString fold_at_newlines
       (mkCompiler (mkTable None None None) (mkOptions (Some 76%Z) None)
          EmptyString)
       "msgid" (Some ("a" ++ str1 LF ++ "b"))
     = String.concat nl
         [ "msgid " ++ quoted EmptyString; quoted "a\n"; quoted "b" ]
  /\ _addPOString fold_at_newlines
       (mkCompiler (mkTable None None None) (mkOptions (Some 76%Z) None)
          EmptyString)
       "msgid" (Some ("a" ++ str1 LF ++ "b"))
     <> "msgid " ++ quoted "a\nb".
Proof.
  split; [reflexivity|]. split; [vm_compute; discriminate|].
  split; [reflexivity|]. split; [reflexivity|]. split; [reflexivity|].
  vm_compute. discriminate.
Qed.

Lemma escape_msgstr_witness :
  _drawBlock Shared.foldLine (new_Compiler Shared.formatCharset None None)
    (mkEntry None None (Some "greeting") None
       (Some (MsgstrArray [Some quoted_literal])))
    None
  = String.concat nl
      [ "msgid " ++ quoted "greeting"; "msgstr " ++ quoted quoted_escaped ]
  /\ _drawBlock fold_at_newlines
       (new_Compiler Shared.formatCharset None
          (Some (mkOptions (Some 0%Z) None)))
       (mkEntry None None (Some "greeting") None
          (Some (MsgstrArray [Some quoted_literal])))
       None
     = String.concat nl
         [ "msgid " ++ quoted "greeting"; "msgstr " ++ quoted quoted_escaped ]
  /\ _drawBlock fold_at_newlines
       (new_Compiler Shared.formatCharset None None)
       (mkEntry None None (Some "greeting") None
          (Some (MsgstrArray [Some quoted_literal])))
       None
     = String.concat nl
         [ "msgid " ++ quoted "greeting"; "msgstr " ++ quoted EmptyString;
           quoted "line one\n";
           quoted ("line two\t" ++ String BSL dq ++ "quoted" ++ String BSL dq)
         ].
Proof.
  split; [|split].
  - refine (eq_trans
      (proj1 (proj2 (proj2
         (escape_msgstr Shared.foldLine
            (new_Compiler Shared.formatCharset None None)
            (mkEntry None None (Some "greeting") None
               (Some (MsgstrArray [Some quoted_literal])))))
         eq_refl eq_refl) _) _).
    + apply kept_whole_default. reflexivity.
    + vm_compute. reflexivity.
  - refine (eq_trans
      (proj1 (proj2 (proj2 (proj2
         (escape_msgstr fold_at_newlines
            (new_Compiler Shared.formatCharset None
               (Some (mkOptions (Some 0%Z) None)))
            (mkEntry None None (Some "greeting") None
               (Some (MsgstrArray [Some quoted_literal])))))
         eq_refl eq_refl)) 0%Z eq_refl _) _).
    + lia.
    + vm_compute. reflexivity.
  - refine (eq_trans
      (proj2 (proj2 (proj2 (proj2
         (escape_msgstr fold_at_newlines
            (new_Compiler Shared.formatCharset None None)
            (mkEntry None None (Some "greeting") None
               (Some (MsgstrArray [Some quoted_literal])))))
         eq_refl eq_refl)) 76%Z eq_refl _ _) _).
    + lia.
    + vm_compute. lia.
    + vm_compute. reflexivity.
Defined.

(** The claim fails as it is stated: under the default [foldLength] of 76
    the escaped text, 30 characters long, is not compiled to one [msgstr]
    line when [foldLine] ends a piece after the escaped newline; it is
    compiled to [msgstr ""] and two quoted lines, whose contents join back
    to the escaped text. *)
Lemma escape_msgstr_counterexample :
  String.length quoted_escaped = 30%nat
  /\ foldLength
       (_options (new_Compiler Shared.formatCharset None None))
     = Some 76%Z
  /\ String.concat EmptyString (fold_at_newlines quoted_escaped 76)
     = quoted_escaped
  /\ _drawBlock fold_at_newlines
       (new_Compiler Shared.formatCharset None None)
       (mkEntry None None (Some "greeting") None
          (Some (MsgstrArray [Some quoted_literal])))
       None
     = String.concat nl
         [ "msgid " ++ quoted "greeting"; "msgstr " ++ quoted EmptyString;
           quoted "line one\n";
           quoted ("line two\t" ++ String BSL dq ++ "quoted" ++ String BSL dq)
         ]
  /\ _drawBlock fold_at_newlines
       (new_Compiler Shared.formatCharset None None)
       (mkEntry None None (Some "greeting") None
          (Some (MsgstrArray [Some quoted_literal])))
       None
     <> String.concat nl
          [ "msgid " ++ quoted "greeting";
            "msgstr " ++ quoted quoted_escaped ].
Proof.
  split; [reflexivity|]. split; [reflexivity|]. split; [reflexivity|].
  split; [reflexivity|]. vm_compute. discriminate.
Qed.

Lemma drawBlock_plural_witness :
  _drawBlock Shared.foldLine (new_Compiler Shared.formatCharset None None)
    cat_entry None
  = cat_block
  /\ _drawBlock Shared.foldLine (new_Compiler Shared.formatCharset None None)
       (mkEntry (Some (mkComments (Some "checked") None None (Some "fuzzy")
                         None))
          (Some "menu") (Some "file") (Some "files")
          (Some (MsgstrArray [Some "Datei"; None])))
       None
     = String.concat nl
         [ "# checked"; "#, fuzzy"; "msgctxt " ++ quoted "menu";
           "msgid " ++ quoted "file"; "msgid_plural " ++ quoted "files";
           "msgstr[0] " ++ quoted "Datei"; "msgstr[1] " ++ quoted EmptyString ].
Proof.
  split.
  - apply (proj2 (drawBlock_plural Shared.foldLine
                    (new_Compiler Shared.formatCharset None None))).
    do 4 (apply Forall_cons; [apply kept_whole_default; reflexivity|]).
    apply Forall_nil.
  - refine (eq_trans
      (proj1 (drawBlock_plural Shared.foldLine
                (new_Compiler Shared.formatCharset None None))
         (mkEntry (Some (mkComments (Some "checked") None None (Some "fuzzy")
                           None))
            (Some "menu") (Some "file") (Some "files")
            (Some (MsgstrArray [Some "Datei"; None])))
         "files" eq_refl _) _).
    + discriminate.
    + vm_compute. reflexivity.
Defined.

Lemma drawBlock_msgstr_count_witness :
  _drawBlock Shared.foldLine (new_Compiler Shared.formatCharset None None)
    (mkEntry None None (Some "file") (Some "files") (Some (MsgstrArray [])))
    None
  = String.concat nl
      [ "msgid " ++ quoted "file"; "msgid_plural " ++ quoted "files" ]
  /\ _drawBlock Shared.foldLine (new_Compiler Shared.formatCharset None None)
       (mkEntry None None (Some "file") None None) None
     = String.concat nl
         [ "msgid " ++ quoted "file"; "msgstr " ++ quoted EmptyString ].
Proof.
  split.
  - refine (eq_trans
      (proj1 (drawBlock_msgstr_count Shared.foldLine
                (new_Compiler Shared.formatCharset None None)
                (mkEntry None None (Some "file") (Some "files")
                   (Some (MsgstrArray []))))
         "files" eq_refl _ eq_refl) _).
    + discriminate.
    + vm_compute. reflexivity.
  - refine (eq_trans
      (proj2 (proj2 (proj2 (drawBlock_msgstr_count Shared.foldLine
                (new_Compiler Shared.formatCharset None None)
                (mkEntry None None (Some "file") None None)) eq_refl))
         eq_refl _) _).
    + apply kept_whole_default. reflexivity.
    + vm_compute. reflexivity.
Defined.

Lemma shared_formatCharset_set (s : string) :
  s <> EmptyString -> Shared.formatCharset (Some s) <> EmptyString.
Proof.
  intros Hs. unfold Shared.formatCharset.
  destruct (toLowerCase s =? "utf8")%string; [discriminate|].
  destruct s as [|a s]; [congruence | discriminate].
Defined.

Lemma charset_not_injected_witness :
  Shared.formatCharset (Some "utf-8") <> EmptyString
  /\ table_after
       (compilePO Shared.formatCharset Shared.foldLine Shared.generateHeader
          (Some (mkTable (Some "utf-8")
                   (Some [("content-type", "text/plain")]) (Some [])))
          None)
     = Some (mkTable (Some "utf-8")
               (Some [("content-type", "text/plain; ")]) (Some []))
  /\ exists buf,
       returned
         (compilePO Shared.formatCharset Shared.foldLine
            Shared.generateHeader
            (Some (mkTable (Some "utf-8")
                     (Some [("content-type", "text/plain")]) (Some [])))
            None)
       = Ok buf
       /\ buffer_text buf
          = String.concat nl
              [ "msgid " ++ quoted EmptyString;
                "msgstr " ++ quoted "content-type: text/plain; " ].
Proof.
  assert (H : Shared.formatCharset (Some "utf-8") <> EmptyString)
    by discriminate.
  split; [exact H|].
  destruct (charset_not_injected Shared.formatCharset Shared.foldLine
              Shared.generateHeader None H) as [Ht [buf [Hbuf Htext]]].
  split; [exact Ht|].
  exists buf. split; [exact Hbuf|].
  rewrite Htext. reflexivity.
Defined.

Lemma compilePO_effects_witness :
  exists content_type,
    table_after
      (compilePO Shared.formatCharset Shared.foldLine Shared.generateHeader
         (Some (mkTable None
                  (Some [("language", "de"); ("content-type", "text/plain")])
                  None))
         None)
    = Some (mkTable (Some "utf-8")
              (Some (obj_set
                       [("language", "de"); ("content-type", "text/plain")]
                       "content-type" content_type))
              (Some []))
    /\ obj_get
         (obj_set [("language", "de"); ("content-type", "text/plain")]
            "content-type" content_type)
         "language"
       = Some "de".
Proof.
  destruct (compilePO_effects Shared.formatCharset Shared.foldLine
              Shared.generateHeader
              (Some (mkTable None
                       (Some [("language", "de");
                              ("content-type", "text/plain")])
                       None))
              None) as [_ [ct [Ht Hk]]].
  exists ct. split; [exact Ht|].
  exact (Hk _ "language" eq_refl ltac:(discriminate)).
Defined.

(** The claim fails as it is stated: the call overwrites [charset] and
    [headers["content-type"]] of the table it is given, sets the missing
    [translations], and adds [foldLength] and [sort] to the options
    object. *)
Lemma compilePO_effects_counterexample :
  table_after
    (compilePO Shared.formatCharset Shared.foldLine Shared.generateHeader
       (Some (mkTable (Some "UTF8")
                (Some [("content-type", "text/plain; charset=latin1")])
                None))
       (Some (mkOptions None None)))
  = Some (mkTable (Some "utf-8")
            (Some [("content-type", "text/plain; charset=utf-8")])
            (Some []))
  /\ options_after
       (compilePO Shared.formatCharset Shared.foldLine Shared.generateHeader
          (Some (mkTable (Some "UTF8")
                   (Some [("content-type", "text/plain; charset=latin1")])
                   None))
          (Some (mkOptions None None)))
     = Some (mkOptions (Some 76%Z) (Some (SortPrim (JBool false))))
  /\ table_after
       (compilePO Shared.formatCharset Shared.foldLine Shared.generateHeader
          (Some (mkTable (Some "UTF8")
                   (Some [("content-type", "text/plain; charset=latin1")])
                   None))
          (Some (mkOptions None None)))
     <> Some (mkTable (Some "UTF8")
                (Some [("content-type", "text/plain; charset=latin1")])
                None).
Proof.
  split; [reflexivity|]. split; [reflexivity|]. discriminate.
Qed.

Lemma order_table_wf :
  no_null order_translations /\ wf_table order_translations
  /\ Forall (fun e => msgid e <> None) (listed_entries order_translations).
Proof.
  split; [|split].
  - apply Forall_cons; [|apply Forall_nil]. simpl.
    repeat (apply Forall_cons; [discriminate|]). apply Forall_nil.
  - split.
    + apply NoDup_cons; [simpl; tauto | apply NoDup_nil].
    + apply Forall_cons; [|apply Forall_nil]. simpl.
      repeat (apply NoDup_cons; [simpl; intuition discriminate|]).
      apply NoDup_nil.
  - simpl. repeat (apply Forall_cons; [discriminate|]). apply Forall_nil.
Defined.

Lemma plain_table_wf :
  no_null plain_translations /\ wf_table plain_translations
  /\ no_index_keys plain_translations.
Proof.
  split; [|split].
  - apply Forall_cons; [|apply Forall_nil]. simpl.
    repeat (apply Forall_cons; [discriminate|]). apply Forall_nil.
  - split.
    + apply NoDup_cons; [simpl; tauto | apply NoDup_nil].
    + apply Forall_cons; [|apply Forall_nil]. simpl.
      repeat (apply NoDup_cons; [simpl; intuition discriminate|]).
      apply NoDup_nil.
  - apply Forall_cons; [|apply Forall_nil]. simpl. split; [reflexivity|].
    repeat (apply Forall_cons; [reflexivity|]). apply Forall_nil.
Defined.

Lemma compile_entry_order_witness :
  (exists buf entries,
     returned
       (compilePO Shared.formatCharset Shared.foldLine Shared.generateHeader
          (Some order_table)
          (Some (mkOptions None (Some (SortPrim (JBool true))))))
     = Ok buf
     /\ Permutation entries (listed_entries order_translations)
     /\ StronglySorted (sort_le compare) entries)
  /\ (exists buf entries,
        returned
          (compilePO Shared.formatCharset Shared.foldLine
             Shared.generateHeader (Some order_table)
             (Some (mkOptions None
                      (Some (SortFunction (fun a b => compare b a))))))
        = Ok buf
        /\ Permutation entries (listed_entries order_translations)
        /\ StronglySorted (sort_le (fun a b => compare b a)) entries)
  /\ (exists buf entries,
        returned
          (compilePO Shared.formatCharset Shared.foldLine
             Shared.generateHeader (Some order_table) None)
        = Ok buf
        /\ map msgid entries = [Some "1"; Some "b"; Some "a"])
  /\ (exists buf entries,
        returned
          (compilePO Shared.formatCharset Shared.foldLine
             Shared.generateHeader (Some plain_table) None)
        = Ok buf
        /\ entries = listed_entries plain_translations).
Proof.
  destruct order_table_wf as [Hnn [Hwf Hid]].
  split; [|split; [|split]].
  - destruct (compile_entry_order Shared.formatCharset Shared.foldLine
                Shared.generateHeader (Some order_table)
                (Some (mkOptions None (Some (SortPrim (JBool true)))))
                Hnn Hwf)
      as [buf [entries [Hbuf [Htext [Hperm [Hsort Hfalse]]]]]].
    exists buf, entries. split; [exact Hbuf|]. split; [exact Hperm|].
    exact (proj2 (Hsort _ eq_refl eq_refl) ltac:(discriminate) Hid).
  - destruct (compile_entry_order Shared.formatCharset Shared.foldLine
                Shared.generateHeader (Some order_table)
                (Some (mkOptions None
                         (Some (SortFunction (fun a b => compare b a)))))
                Hnn Hwf)
      as [buf [entries [Hbuf [Htext [Hperm [Hsort Hfalse]]]]]].
    exists buf, entries. split; [exact Hbuf|]. split; [exact Hperm|].
    apply (proj1 (Hsort _ eq_refl eq_refl) (fun a b => compare b a) eq_refl).
    now apply consistent_comparator_swap, compare_consistent_comparator.
  - destruct (compile_entry_order Shared.formatCharset Shared.foldLine
                Shared.generateHeader (Some order_table) None Hnn Hwf)
      as [buf [entries [Hbuf [Htext [Hperm [Hsort Hfalse]]]]]].
    exists buf, entries. split; [exact Hbuf|].
    now rewrite (proj1 (Hfalse eq_refl)).
  - destruct plain_table_wf as [Hnn' [Hwf' Hno]].
    destruct (compile_entry_order Shared.formatCharset Shared.foldLine
                Shared.generateHeader (Some plain_table) None Hnn' Hwf')
      as [buf [entries [Hbuf [Htext [Hperm [Hsort Hfalse]]]]]].
    exists buf, entries. split; [exact Hbuf|].
    exact (proj2 (Hfalse eq_refl) Hno).
Defined.

(** The claim fails as it is stated: with [sort] left at [false], the entry
    whose msgid is "1" is compiled before the entry "b", which was inserted
    first. *)
Lemma compile_entry_order_counterexample :
  map msgid (listed_entries order_translations)
  = [Some "b"; Some "1"; Some "a"]
  /\ returned
       (compilePO Shared.formatCharset Shared.foldLine Shared.generateHeader
          (Some order_table) None)
     = Ok (Buffer_from
             (String.concat nlnl
                [ String.concat nl
                    [ "msgid " ++ quoted EmptyString;
                      "msgstr "
                      ++ quoted "content-type: text/plain; charset=utf-8" ];
                  String.concat nl
                    [ "msgid " ++ quoted "1"; "msgstr " ++ quoted "one" ];
                  String.concat nl
                    [ "msgid " ++ quoted "b"; "msgstr " ++ quoted "B" ];
                  String.concat nl
                    [ "msgid " ++ quoted "a"; "msgstr " ++ quoted "A" ] ])
             "utf-8").
Proof.
  split; reflexivity.
Qed.


(** * Further properties of the compiler *)

(** ** The comparator *)

(** X1: [compare] is antisymmetric on all entries, with or without a
    [msgid]: swapping the arguments negates the result. *)
Theorem compare_antisymmetric (r1 r2 : Entry) :
  compare r1 r2 = (- compare r2 r1)%Z.
Proof.
  unfold compare, js_gt.
  destruct (msgid r1) as [x|], (msgid r2) as [y|]; try reflexivity.
  unfold String.ltb. rewrite (String.compare_antisym y x).
  destruct (String.compare x y); reflexivity.
Qed.

(** X2: [compare] returns 0 exactly when the two msgids are the same string
    or one of them is missing; an entry without [msgid] compares equal to
    every entry. *)
Theorem compare_zero (r1 r2 : Entry) :
  compare r1 r2 = 0%Z
  <-> (msgid r1 = None \/ msgid r2 = None \/ msgid r1 = msgid r2).
Proof.
  unfold compare, js_gt.
  destruct (msgid r1) as [x|], (msgid r2) as [y|]; try tauto.
  unfold String.ltb. rewrite (String.compare_antisym y x).
  destruct (String.compare x y) eqn:E; simpl; split; intros H;
    try discriminate.
  - apply String.compare_eq_iff in E. subst. tauto.
  - reflexivity.
  - destruct H as [H|[H|H]]; try discriminate.
    injection H as ->. pose proof (String.compare_antisym y y) as A.
    rewrite E in A. discriminate.
  - destruct H as [H|[H|H]]; try discriminate.
    injection H as ->. pose proof (String.compare_antisym y y) as A.
    rewrite E in A. discriminate.
Qed.

Lemma compare_zero_witness :
  compare (mkEntry None (Some "menu") (Some "file") None None)
    (mkEntry None None (Some "file") None None)
  = 0%Z
  /\ (compare (mkEntry None None None None None)
        (mkEntry None None (Some "file") None None)
      = 0%Z).
Proof.
  split.
  - apply (proj2 (compare_zero _ _)). right. right. reflexivity.
  - apply (proj2 (compare_zero _ _)). left. reflexivity.
Defined.

(** ** Sorted output *)

Lemma sorted_perm_unique (le : Entry -> Entry -> Prop) (l1 l2 : list Entry) :
  Permutation l1 l2 ->
  StronglySorted le l1 -> StronglySorted le l2 ->
  (forall a b, In a l1 -> In b l1 -> le a b -> le b a -> a = b) ->
  l1 = l2.
Proof.
  revert l2. induction l1 as [|x l1 IH]; intros l2 P S1 S2 Hanti.
  - apply Permutation_nil in P. now subst.
  - destruct l2 as [|y l2].
    { apply Permutation_sym, Permutation_nil in P. discriminate. }
    inversion S1 as [|? ? S1' Hx]; subst.
    inversion S2 as [|? ? S2' Hy]; subst.
    rewrite Forall_forall in Hx, Hy.
    assert (Hyin : In y (x :: l1)).
    { apply (Permutation_in _ (Permutation_sym P)). now left. }
    assert (Hxin : In x (y :: l2)).
    { apply (Permutation_in _ P). now left. }
    assert (E : x = y).
    { destruct Hyin as [E|Hyin]; [exact E|].
      destruct Hxin as [E|Hxin]; [now symmetry|].
      apply Hanti; simpl; auto. }
    subst y. f_equal. apply Permutation_cons_inv in P.
    apply IH; auto. intros a b Ha Hb. apply Hanti; now right.
Qed.

Lemma nodup_map_inj {A B} (f : A -> B) (l : list A) (a b : A) :
  NoDup (map f l) -> In a l -> In b l -> f a = f b -> a = b.
Proof.
  induction l as [|x l IH]; simpl; [tauto|].
  intros Hnd Ha Hb E. inversion Hnd as [|? ? Hx Hnd']; subst.
  destruct Ha as [->|Ha], Hb as [->|Hb]; auto.
  - exfalso. apply Hx. rewrite E. now apply in_map.
  - exfalso. apply Hx. rewrite <- E. now apply in_map.
Qed.

Lemma sort_response_not_false (p : jsprim) (l : list Entry) :
  p <> JBool false ->
  sort_response (Some (SortPrim p)) l = Array_sort compare l.
Proof.
  destruct p as [| |[|]| |]; intros H; try reflexivity. congruence.
Qed.

Lemma Array_sort_canonical (l1 l2 : list Entry) :
  Permutation l1 l2 ->
  Forall (fun e => msgid e <> None) l1 ->
  NoDup (map msgid l1) ->
  Array_sort compare l1 = Array_sort compare l2.
Proof.
  intros P Hid Hnd.
  assert (Hid2 : Forall (fun e => msgid e <> None) l2).
  { rewrite Forall_forall in Hid |- *. intros e He. apply Hid.
    apply (Permutation_in _ (Permutation_sym P) He). }
  apply (sorted_perm_unique (sort_le compare)).
  - rewrite <- (Array_sort_perm compare l1), <- (Array_sort_perm compare l2).
    exact P.
  - now apply Array_sort_sorted, compare_consistent.
  - now apply Array_sort_sorted, compare_consistent.
  - intros a b Ha Hb Hab Hba.
    apply (Permutation_in _ (Permutation_sym (Array_sort_perm compare l1)))
      in Ha, Hb.
    apply (nodup_map_inj msgid l1 a b Hnd Ha Hb).
    rewrite Forall_forall in Hid.
    pose proof (Hid a Ha) as Hxa. pose proof (Hid b Hb) as Hxb.
    destruct (msgid a) as [x|] eqn:Ex; [|congruence].
    destruct (msgid b) as [y|] eqn:Ey; [|congruence].
    apply (compare_le a b x y Ex Ey) in Hab.
    apply (compare_le b a y x Ey Ex) in Hba.
    rewrite (String.compare_antisym y x) in Hba.
    destruct (String.compare x y) eqn:E; simpl in Hba; try congruence.
    apply String.compare_eq_iff in E. now subst.
Qed.

Lemma drawBlock_options (foldLine : string -> Z -> list string)
  (this1 this2 : Compiler) (e : Entry) (override : option Entry) :
  _options this1 = _options this2 ->
  _drawBlock foldLine this1 e override = _drawBlock foldLine this2 e override.
Proof.
  destruct this1 as [t1 o1 c1], this2 as [t2 o2 c2]. simpl.
  intros ->. reflexivity.
Qed.

Lemma new_Compiler_parts (formatCharset : option string -> string)
  (c : option string) (h : option (obj string)) (options : option Options) :
  exists cs hs,
    forall tr,
      new_Compiler formatCharset (Some (mkTable c h tr)) options
      = mkCompiler (mkTable (Some cs) (Some hs) (Some (or_obj tr)))
          (with_defaults options) cs.
Proof.
  destruct (map_params formatCharset (formatCharset c)
              (tl (content_type_parts (or_obj h)))) as [cs params] eqn:E.
  destruct (truthy_str cs) eqn:Hcs.
  - eexists cs, _. intros tr. rewrite new_Compiler_eq.
    rewrite (handleCharset_eq formatCharset _ _ _ _ eq_refl eq_refl eq_refl).
    cbn [table_or_empty _table charset headers translations or_obj].
    rewrite E, Hcs. reflexivity.
  - eexists _, _. intros tr. rewrite new_Compiler_eq.
    rewrite (handleCharset_eq formatCharset _ _ _ _ eq_refl eq_refl eq_refl).
    cbn [table_or_empty _table charset headers translations or_obj].
    rewrite E, Hcs. reflexivity.
Qed.

(** X3: with sorting on and the default comparator, the output does not
    depend on the order in which the entries were inserted: two tables with
    the same charset, headers and header pseudo-entry whose entries are the
    same up to order compile to the same result, provided every entry has a
    [msgid] and no two entries share one. *)
Theorem sorted_output_canonical (formatCharset : option string -> string)
  (foldLine : string -> Z -> list string)
  (generateHeader : obj string -> string)
  (c : option string) (h : option (obj string))
  (tr1 tr2 : obj ContextValue) (options : option Options) (p : jsprim) :
  sort (with_defaults options) = Some (SortPrim p) -> p <> JBool false ->
  no_null tr1 -> no_null tr2 -> wf_table tr1 -> wf_table tr2 ->
  Permutation (listed_entries tr1) (listed_entries tr2) ->
  header_entry tr1 = header_entry tr2 ->
  Forall (fun e => msgid e <> None) (listed_entries tr1) ->
  NoDup (map msgid (listed_entries tr1)) ->
  returned
    (compilePO formatCharset foldLine generateHeader
       (Some (mkTable c h (Some tr1))) options)
  = returned
      (compilePO formatCharset foldLine generateHeader
         (Some (mkTable c h (Some tr2))) options).
Proof.
  intros Hs Hp Hn1 Hn2 Hw1 Hw2 P Hh Hid Hnd.
  destruct (new_Compiler_parts formatCharset c h options) as [cs [hs E]].
  unfold compilePO. cbn [returned]. rewrite !E. unfold compile.
  rewrite !compile_blocks_ok by assumption.
  cbn [_table _options _charset translations headers or_obj bind].
  rewrite Hs, Hh, !sort_response_not_false by assumption.
  assert (P' : Permutation (enumerated_entries tr1) (enumerated_entries tr2)).
  { rewrite (enumerated_entries_perm tr1 Hw1),
      (enumerated_entries_perm tr2 Hw2). exact P. }
  assert (Hsort : Array_sort compare (enumerated_entries tr1)
                  = Array_sort compare (enumerated_entries tr2)).
  { apply Array_sort_canonical; [exact P'| |].
    - rewrite Forall_forall in Hid |- *. intros e He. apply Hid.
      apply (Permutation_in _ (enumerated_entries_perm tr1 Hw1) He).
    - apply (Permutation_NoDup
               (Permutation_map msgid
                  (Permutation_sym (enumerated_entries_perm tr1 Hw1)))).
      exact Hnd. }
  rewrite Hsort. reflexivity.
Qed.

Lemma reordered_table_wf :
  no_null reordered_translations /\ wf_table reordered_translations.
Proof.
  split.
  - apply Forall_cons; [|apply Forall_nil]. simpl.
    repeat (apply Forall_cons; [discriminate|]). apply Forall_nil.
  - split.
    + apply NoDup_cons; [simpl; tauto | apply NoDup_nil].
    + apply Forall_cons; [|apply Forall_nil]. simpl.
      repeat (apply NoDup_cons; [simpl; intuition discriminate|]).
      apply NoDup_nil.
Defined.

Lemma sorted_output_canonical_witness :
  returned
    (compilePO Shared.formatCharset Shared.foldLine Shared.generateHeader
       (Some (mkTable None None (Some order_translations)))
       (Some (mkOptions None (Some (SortPrim (JBool true))))))
  = returned
      (compilePO Shared.formatCharset Shared.foldLine Shared.generateHeader
         (Some (mkTable None None (Some reordered_translations)))
         (Some (mkOptions None (Some (SortPrim (JBool true)))))).
Proof.
  destruct order_table_wf as [Hn1 [Hw1 Hid]].
  destruct reordered_table_wf as [Hn2 Hw2].
  apply (sorted_output_canonical Shared.formatCharset Shared.foldLine
           Shared.generateHeader None None order_translations
           reordered_translations
           (Some (mkOptions None (Some (SortPrim (JBool true)))))
           (JBool true) eq_refl ltac:(discriminate) Hn1 Hn2 Hw1 Hw2).
  - simpl. apply perm_trans with
      (l' := [mkEntry None None (Some "b") None (Some (MsgstrArray [Some "B"]));
              mkEntry None None (Some "a") None (Some (MsgstrArray [Some "A"]));
              mkEntry None None (Some "1") None
                (Some (MsgstrArray [Some "one"]))]).
    + apply perm_skip, perm_swap.
    + apply perm_trans with
        (l' := [mkEntry None None (Some "a") None
                  (Some (MsgstrArray [Some "A"]));
                mkEntry None None (Some "b") None
                  (Some (MsgstrArray [Some "B"]));
                mkEntry None None (Some "1") None
                  (Some (MsgstrArray [Some "one"]))]).
      * apply perm_swap.
      * apply perm_skip, perm_swap.
  - reflexivity.
  - exact Hid.
  - simpl. repeat (apply NoDup_cons; [simpl; intuition discriminate|]).
    apply NoDup_nil.
Defined.

(** X4: only [sort: false] (or no [sort] property) leaves the entries
    unsorted.  Any other value that is not a function, the falsy
    [undefined], [null], [0] and [''] included, sorts the entries by
    [compare]. *)
Theorem sort_on_unless_false (formatCharset : option string -> string)
  (foldLine : string -> Z -> list string)
  (generateHeader : obj string -> string)
  (table : option Table) (options : option Options) (p : jsprim) :
  let trs := or_obj (translations (table_or_empty table)) in
  let compiler := new_Compiler formatCharset table options in
  sort (with_defaults options) = Some (SortPrim p) -> p <> JBool false ->
  no_null trs -> wf_table trs ->
  Forall (fun e => msgid e <> None) (listed_entries trs) ->
  exists buf entries,
    returned (compilePO formatCharset foldLine generateHeader table options)
    = Ok buf
    /\ buffer_text buf
       = String.concat nlnl
           (_drawBlock foldLine compiler (header_entry trs)
              (Some (mkEntry None None None None
                       (Some (MsgstrString
                                (generateHeader
                                   (or_obj (headers (_table compiler))))))))
            :: map (fun e => _drawBlock foldLine compiler e None) entries)
    /\ Permutation entries (listed_entries trs)
    /\ StronglySorted (sort_le compare) entries.
Proof.
  intros trs compiler Hs Hp Hnn Hwf Hid.
  destruct (compilePO_blocks formatCharset foldLine generateHeader
              table options Hnn) as [buf [Hbuf Htext]].
  fold trs compiler in Htext.
  rewrite Hs, (sort_response_not_false p _ Hp) in Htext.
  pose proof (enumerated_entries_perm trs Hwf) as Hperm.
  exists buf, (Array_sort compare (enumerated_entries trs)).
  split; [exact Hbuf|]. split; [exact Htext|]. split.
  - rewrite <- Array_sort_perm. exact Hperm.
  - apply Array_sort_sorted, compare_consistent.
    rewrite Forall_forall in Hid |- *. intros e He. apply Hid.
    eapply Permutation_in; eassumption.
Qed.

Lemma sort_on_unless_false_witness :
  exists buf entries,
    returned
      (compilePO Shared.formatCharset Shared.foldLine Shared.generateHeader
         (Some order_table)
         (Some (mkOptions None (Some (SortPrim JUndefined)))))
    = Ok buf
    /\ Permutation entries (listed_entries order_translations)
    /\ StronglySorted (sort_le compare) entries.
Proof.
  destruct order_table_wf as [Hnn [Hwf Hid]].
  destruct (sort_on_unless_false Shared.formatCharset Shared.foldLine
              Shared.generateHeader (Some order_table)
              (Some (mkOptions None (Some (SortPrim JUndefined))))
              JUndefined eq_refl ltac:(discriminate) Hnn Hwf Hid)
    as [buf [entries [Hbuf [_ [Hperm Hsorted]]]]].
  exists buf, entries. split; [exact Hbuf|]. split; assumption.
Defined.

(** ** Escaping *)

Lemma escape_char_cases (a : ascii) :
  (a = BSL /\ escape_char a = String BSL (str1 BSL))
  \/ (a = DQ /\ escape_char a = String BSL dq)
  \/ (a = TAB /\ escape_char a = String BSL "t")
  \/ (a = CR /\ escape_char a = String BSL "r")
  \/ (a = LF /\ escape_char a = String BSL "n")
  \/ (a <> BSL /\ a <> DQ /\ a <> TAB /\ a <> CR /\ a <> LF
      /\ escape_char a = str1 a).
Proof.
  unfold escape_char.
  destruct (Ascii.eqb_spec a BSL) as [->|Hb]; [tauto|].
  destruct (Ascii.eqb_spec a DQ) as [->|Hq]; [tauto|].
  destruct (Ascii.eqb_spec a TAB) as [->|Ht]; [tauto|].
  destruct (Ascii.eqb_spec a CR) as [->|Hr]; [tauto|].
  destruct (Ascii.eqb_spec a LF) as [->|Hl]; [tauto|].
  do 5 right. tauto.
Qed.

Lemma unescape_escape_chars (s : string) : unescape (escape_chars s) = s.
Proof.
  induction s as [|a s IH]; [reflexivity|]. cbn [escape_chars].
  destruct (escape_char_cases a) as [H|[H|[H|[H|[H|H]]]]];
    try (destruct H as [Ha He]; subst a; rewrite He; cbn; now rewrite IH).
  destruct H as [Hb [_ [_ [_ [_ He]]]]]. rewrite He.
  cbn [append str1 unescape]. apply Ascii.eqb_neq in Hb. rewrite Hb.
  now rewrite IH.
Qed.

(** X5: escaping loses nothing: two values with the same escaped text are
    the same value. *)
Theorem escape_injective (a b : string) : escape a = escape b -> a = b.
Proof.
  intros H. rewrite !escape_by_char in H.
  rewrite <- (unescape_escape_chars a), <- (unescape_escape_chars b).
  now rewrite H.
Qed.

Lemma escape_injective_witness : "a" ++ str1 BSL = String "a" (str1 BSL).
Proof.
  apply (escape_injective ("a" ++ str1 BSL) (String "a" (str1 BSL))).
  reflexivity.
Defined.

Lemma contains_app (c : ascii) (a b : string) :
  contains c (a ++ b) = contains c a || contains c b.
Proof.
  induction a as [|x a IH]; simpl; [reflexivity|].
  now rewrite IH, orb_assoc.
Qed.

Lemma well_escaped_chars (s : string) : well_escaped (escape_chars s) = true.
Proof.
  induction s as [|a s IH]; [reflexivity|]. cbn [escape_chars].
  destruct (escape_char_cases a) as [H|[H|[H|[H|[H|H]]]]];
    try (destruct H as [Ha He]; subst a; rewrite He; cbn; exact IH).
  destruct H as [Hb [Hq [Ht [Hr [Hl He]]]]]. rewrite He.
  cbn [append str1 well_escaped].
  apply Ascii.eqb_neq in Hb, Hq, Ht, Hr, Hl.
  now rewrite Hb, Hq, Ht, Hr, Hl, IH.
Qed.

Lemma escape_chars_free (c : ascii) (s : string) :
  c = LF \/ c = CR \/ c = TAB -> contains c (escape_chars s) = false.
Proof.
  intros Hc. induction s as [|a s IH]; [reflexivity|]. cbn [escape_chars].
  rewrite contains_app, IH, orb_false_r.
  destruct (escape_char_cases a) as [H|[H|[H|[H|[H|H]]]]];
    try (destruct H as [Ha He]; subst a; rewrite He;
         destruct Hc as [Hc|[Hc|Hc]]; subst c; reflexivity).
  destruct H as [Hb [Hq [Ht [Hr [Hl He]]]]]. rewrite He.
  cbn. rewrite orb_false_r. apply Ascii.eqb_neq.
  destruct Hc as [Hc|[Hc|Hc]]; subst c; assumption.
Qed.

Lemma escape_well_formed_lf (value : string) :
  contains LF (escape value) = false.
Proof.
  rewrite escape_by_char. apply escape_chars_free. tauto.
Qed.

(** X6: the escaped text of any value holds no raw newline, carriage return
    or tab, no quote that is not escaped, and no backslash outside the five
    escape sequences: it fits between two quotes on one line. *)
Theorem escape_well_formed (value : string) :
  well_escaped (escape value) = true
  /\ contains LF (escape value) = false
  /\ contains CR (escape value) = false
  /\ contains TAB (escape value) = false.
Proof.
  rewrite escape_by_char.
  split; [apply well_escaped_chars|].
  repeat split; apply escape_chars_free; tauto.
Qed.

(** ** Lines *)

Lemma split_on_nonempty (c : ascii) (s : string) : split_on c s <> [].
Proof.
  destruct s as [|a s]; simpl; [discriminate|].
  destruct (a =? c)%char; [discriminate|].
  destruct (split_on c s); discriminate.
Qed.

Lemma split_on_app_sep (c : ascii) (a b : string) :
  split_on c (a ++ String c b) = (split_on c a ++ split_on c b)%list.
Proof.
  induction a as [|x a IH]; simpl.
  - now rewrite Ascii.eqb_refl.
  - destruct (x =? c)%char; [now rewrite IH|].
    rewrite IH. pose proof (split_on_nonempty c a) as Hne.
    destruct (split_on c a); [congruence | reflexivity].
Qed.

Lemma split_on_free (c : ascii) (s : string) :
  contains c s = false -> split_on c s = [s].
Proof.
  induction s as [|a s IH]; simpl; [reflexivity|].
  intros H. apply orb_false_iff in H. destruct H as [Ha Hs].
  now rewrite Ha, (IH Hs).
Qed.

Lemma split_on_concat (items : list string) :
  items <> [] ->
  split_on LF (String.concat nl items) = flat_map (split_on LF) items.
Proof.
  induction items as [|x items IH]; [congruence|]. intros _.
  destruct items as [|y items].
  - simpl. now rewrite app_nil_r.
  - rewrite concat_cons by discriminate.
    change (nl ++ String.concat nl (y :: items))
      with (String LF (String.concat nl (y :: items))).
    rewrite split_on_app_sep, IH by discriminate. reflexivity.
Qed.

Lemma flat_split_free (l : list string) :
  Forall (fun x => contains LF x = false) l ->
  flat_map (split_on LF) l = l.
Proof.
  induction 1 as [|x l Hx _ IH]; [reflexivity|]. simpl.
  now rewrite (split_on_free LF x Hx), IH.
Qed.

Lemma solid_free (s : string) :
  contains LF s = false -> s <> EmptyString -> solid s.
Proof.
  intros Hf Hne. unfold solid. rewrite (split_on_free LF s Hf).
  now constructor.
Qed.

Lemma solid_concat (items : list string) :
  items <> [] -> Forall solid items -> solid (String.concat nl items).
Proof.
  intros Hne H. unfold solid. rewrite (split_on_concat items Hne).
  rewrite Forall_forall in H |- *. intros l Hl.
  apply in_flat_map in Hl. destruct Hl as [x [Hx Hl]].
  specialize (H x Hx). unfold solid in H. rewrite Forall_forall in H.
  now apply H.
Qed.

Lemma split_lines_free (s : string) :
  Forall (fun l => contains LF l = false /\ contains CR l = false)
    (split_lines s).
Proof.
  assert (H : forall n s, (String.length s <= n)%nat ->
            Forall (fun l => contains LF l = false /\ contains CR l = false)
              (split_lines s)).
  { clear s. induction n as [|n IH]; intros s Hlen.
    - destruct s; [|simpl in Hlen; lia]. repeat constructor.
    - destruct s as [|a s]; [repeat constructor|]. simpl in Hlen.
      cbn [split_lines].
      destruct (Ascii.eqb_spec a LF) as [->|Hl].
      { constructor; [now split | apply IH; lia]. }
      destruct (Ascii.eqb_spec a CR) as [->|Hr].
      { destruct s as [|b s].
        - repeat constructor.
        - destruct (b =? LF)%char.
          + constructor; [now split|]. apply IH. simpl in Hlen. lia.
          + constructor; [now split|]. apply IH. lia. }
      assert (Hs : Forall
                     (fun l => contains LF l = false /\ contains CR l = false)
                     (split_lines s)) by (apply IH; lia).
      apply Ascii.eqb_neq in Hl, Hr.
      destruct (split_lines s) as [|p ps].
      * constructor; [|constructor]. simpl. now rewrite Hl, Hr.
      * inversion Hs as [|? ? [Hp1 Hp2] Hps]; subst.
        constructor; [|exact Hps]. simpl.
        now rewrite Hl, Hr, Hp1, Hp2. }
  exact (H (String.length s) s (le_n _)).
Qed.

Lemma split_lines_nonempty (s : string) : split_lines s <> [].
Proof.
  destruct s as [|a s]; cbn [split_lines]; [discriminate|].
  destruct (a =? LF)%char; [discriminate|].
  destruct (a =? CR)%char.
  - destruct s as [|b s]; [discriminate|].
    destruct (b =? LF)%char; discriminate.
  - destruct (split_lines s); discriminate.
Qed.

(** ** [_drawComments] *)

Lemma comment_types_free (type : (Comments -> option string) * string) :
  In type comment_types ->
  snd type <> EmptyString /\ contains LF (snd type) = false
  /\ contains CR (snd type) = false /\ String.prefix "#" (snd type) = true.
Proof.
  unfold comment_types. simpl.
  intros [<-|[<-|[<-|[<-|[<-|[]]]]]]; simpl; repeat split;
    (discriminate || reflexivity).
Qed.

Lemma prefix_app (p a b : string) :
  String.prefix p a = true -> String.prefix p (a ++ b) = true.
Proof.
  revert a. induction p as [|x p IH]; intros a H;
    [destruct (a ++ b); reflexivity|].
  destruct a as [|y a]; simpl in *; [discriminate|].
  destruct (ascii_dec x y); [now apply IH | discriminate].
Qed.

Lemma comment_line_in (c : Comments) (l : string) :
  In l (flat_map (comment_lines c) comment_types) ->
  exists type line,
    In type comment_types /\ l = snd type ++ line
    /\ contains LF line = false /\ contains CR line = false.
Proof.
  intros H. apply in_flat_map in H. destruct H as [type [Ht Hl]].
  unfold comment_lines in Hl.
  destruct (fst type c) as [s|]; [|contradiction].
  destruct (truthy_str s); [|contradiction].
  apply in_map_iff in Hl. destruct Hl as [line [<- Hline]].
  pose proof (split_lines_free s) as Hf. rewrite Forall_forall in Hf.
  destruct (Hf line Hline) as [H1 H2].
  now exists type, line.
Qed.

Lemma concat_head_nonempty (sep x : string) (l : list string) :
  x <> EmptyString -> String.concat sep (x :: l) <> EmptyString.
Proof.
  intros Hx. destruct l as [|y l]; simpl; [exact Hx|].
  destruct x; [congruence | discriminate].
Qed.

Lemma comment_lines_shape (c : Comments) :
  Forall
    (fun l =>
       ((exists type, In type comment_types
                      /\ String.prefix (snd type) l = true)
        /\ String.prefix "#" l = true /\ contains CR l = false)
       /\ contains LF l = false /\ l <> EmptyString)
    (flat_map (comment_lines c) comment_types).
Proof.
  rewrite Forall_forall. intros l Hl.
  destruct (comment_line_in c l Hl) as [type [line [Ht [-> [H1 H2]]]]].
  destruct (comment_types_free type Ht) as [Hp [Hlf [Hcr Hhash]]].
  repeat split.
  - exists type. split; [exact Ht|].
    clear. induction (snd type) as [|x p IH]; [now destruct line|].
    simpl. destruct (ascii_dec x x); [exact IH | congruence].
  - now apply prefix_app.
  - now rewrite contains_app, Hcr, H2.
  - now rewrite contains_app, Hlf, H1.
  - destruct (snd type); [congruence | discriminate].
Qed.

Lemma drawComments_split (c : Comments) :
  _drawComments c <> EmptyString ->
  split_on LF (_drawComments c) = flat_map (comment_lines c) comment_types.
Proof.
  intros Hne. unfold _drawComments in *.
  rewrite split_on_concat.
  - apply flat_split_free.
    apply (Forall_impl _ (fun l H => proj1 (proj2 H)) (comment_lines_shape c)).
  - intros E. rewrite E in Hne. now apply Hne.
Qed.

(** X7: a comment can never put a line of its own into the PO text: when
    [_drawComments] renders anything, splitting its result at the newlines
    gives back exactly the prefixed comment lines, so every line starts with
    one of the five comment prefixes (and thus with [#]) and holds no
    carriage return. *)
Theorem drawComments_lines (c : Comments) :
  _drawComments c <> EmptyString ->
  split_on LF (_drawComments c) = flat_map (comment_lines c) comment_types
  /\ Forall
       (fun l =>
          (exists type, In type comment_types
                        /\ String.prefix (snd type) l = true)
          /\ String.prefix "#" l = true /\ contains CR l = false)
       (split_on LF (_drawComments c)).
Proof.
  intros Hne. pose proof (drawComments_split c Hne) as Hsplit.
  split; [exact Hsplit|]. rewrite Hsplit.
  apply (Forall_impl _ (fun l H => proj1 H) (comment_lines_shape c)).
Qed.

Lemma drawComments_lines_witness :
  split_on LF
    (_drawComments
       (mkComments (Some ("first" ++ str1 CR ++ nl ++ "msgid x"))
          None None (Some "fuzzy") None))
  = ["# first"; "# msgid x"; "#, fuzzy"].
Proof.
  refine (eq_trans
    (proj1 (drawComments_lines
       (mkComments (Some ("first" ++ str1 CR ++ nl ++ "msgid x"))
          None None (Some "fuzzy") None) _)) _).
  - discriminate.
  - reflexivity.
Defined.

Lemma app_nil_iff {A} (l l' : list A) :
  (l ++ l')%list = [] <-> l = [] /\ l' = [].
Proof.
  split; [apply app_eq_nil | intros [-> ->]; reflexivity].
Qed.

(** X8: [_drawComments] renders the empty string, so that [_drawBlock]
    pushes no comment item, exactly when none of the five recognised
    comment fields holds a non-empty string. *)
Theorem drawComments_empty (c : Comments) :
  _drawComments c = EmptyString
  <-> (or_empty (translator c) = EmptyString
       /\ or_empty (reference c) = EmptyString
       /\ or_empty (extracted c) = EmptyString
       /\ or_empty (flag c) = EmptyString
       /\ or_empty (previous c) = EmptyString).
Proof.
  assert (Hnil : forall type, In type comment_types ->
            (comment_lines c type = [] <-> or_empty (fst type c) = EmptyString)).
  { intros type _. unfold comment_lines.
    destruct (fst type c) as [s|]; simpl; [|tauto].
    destruct (truthy_str s) eqn:Hs.
    - apply truthy_str_true in Hs. split; [|congruence].
      intros E. apply map_eq_nil in E. now destruct (split_lines_nonempty s).
    - apply truthy_str_false in Hs. tauto. }
  assert (Hflat : flat_map (comment_lines c) comment_types = []
                  <-> (or_empty (translator c) = EmptyString
                       /\ or_empty (reference c) = EmptyString
                       /\ or_empty (extracted c) = EmptyString
                       /\ or_empty (flag c) = EmptyString
                       /\ or_empty (previous c) = EmptyString)).
  { unfold comment_types in *. cbn [flat_map].
    rewrite !app_nil_iff.
    rewrite (Hnil (translator, "# ")), (Hnil (reference, "#: ")),
      (Hnil (extracted, "#. ")), (Hnil (flag, "#, ")),
      (Hnil (previous, "#| ")) by (simpl; tauto).
    cbn [fst]. tauto. }
  rewrite <- Hflat. unfold _drawComments. split.
  - intros E.
    destruct (flat_map (comment_lines c) comment_types) as [|x l] eqn:Hl;
      [reflexivity|].
    exfalso. revert E. apply concat_head_nonempty.
    assert (Hx : In x (flat_map (comment_lines c) comment_types))
      by (rewrite Hl; now left).
    destruct (comment_line_in c x Hx) as [type [line [Ht [-> _]]]].
    destruct (comment_types_free type Ht) as [Hp _].
    destruct (snd type); [congruence | discriminate].
  - intros ->. reflexivity.
Qed.

Lemma drawComments_empty_witness :
  _drawComments (mkComments None (Some EmptyString) None None None)
  = EmptyString.
Proof.
  apply (proj2 (drawComments_empty
                  (mkComments None (Some EmptyString) None None None))).
  repeat split.
Defined.

(** ** Blocks and blank lines *)

Lemma uint_string_free (d : Decimal.uint) :
  contains LF (NilEmpty.string_of_uint d) = false.
Proof.
  induction d; simpl; auto.
Qed.

Lemma index_to_string_free (i : nat) :
  contains LF (index_to_string i) = false.
Proof.
  unfold index_to_string, NilZero.string_of_uint.
  destruct (Nat.to_uint i) eqn:E; try (rewrite <- E; apply uint_string_free).
  reflexivity.
Qed.

Lemma Forall_mapi_from {A B} (P : B -> Prop) (f : nat -> A -> B)
  (l : list A) :
  (forall i x, P (f i x)) -> forall i, Forall P (mapi_from i f l).
Proof.
  intros H. induction l as [|x l IH]; intros i; simpl; constructor; auto.
Qed.

Lemma drawComments_solid (c : Comments) :
  truthy_str (_drawComments c) = true -> solid (_drawComments c).
Proof.
  intros H. apply truthy_str_true in H. unfold solid.
  rewrite (drawComments_split c H).
  apply (Forall_impl _ (fun l H => proj2 (proj2 H)) (comment_lines_shape c)).
Qed.

Lemma quoted_free (s : string) :
  contains LF s = false ->
  contains LF (quoted s) = false /\ quoted s <> EmptyString.
Proof.
  intros H. unfold quoted. split; [|discriminate].
  now rewrite !contains_app, H.
Qed.

Lemma addPOString_solid (foldLine : string -> Z -> list string)
  (this : Compiler) (key : string) (value : option string) :
  folds_within_line foldLine -> contains LF key = false ->
  solid (_addPOString foldLine this key value).
Proof.
  intros Hfold Hkey. unfold _addPOString. rewrite or_empty_default.
  set (v := escape (or_empty value)).
  assert (Hv : contains LF v = false) by apply escape_well_formed_lf.
  set (lines := match foldLength (_options this) with
                | Some n => if (0 <? n)%Z then foldLine v n else [v]
                | None => [v]
                end).
  assert (Hlines : Forall (fun p => contains LF p = false) lines).
  { unfold lines. destruct (foldLength (_options this)) as [n|].
    - destruct (0 <? n)%Z; [now apply Hfold | now repeat constructor].
    - now repeat constructor. }
  clearbody lines.
  destruct (Nat.ltb_spec (List.length lines) 2) as [Hlen|Hlen].
  - apply solid_free.
    + assert (HX : contains LF
                     (or_empty (or_str (hd_error lines) (Some EmptyString)))
                   = false).
      { rewrite or_empty_default. destruct lines as [|p ps]; [reflexivity|].
        now inversion Hlines. }
      now rewrite !contains_app, Hkey, HX.
    + destruct key; discriminate.
  - assert (Hne : lines <> []).
    { intros E. rewrite E in Hlen. simpl in Hlen. lia. }
    replace (key ++ " " ++ dq ++ dq ++ nl ++ dq
             ++ String.concat (dq ++ nl ++ dq) lines ++ dq)
      with (String.concat nl ((key ++ " " ++ dq ++ dq) :: map quoted lines)).
    + apply solid_concat; [discriminate|]. constructor.
      * apply solid_free; [|destruct key; discriminate].
        now rewrite !contains_app, Hkey.
      * rewrite Forall_forall in Hlines |- *. intros q Hq.
        apply in_map_iff in Hq. destruct Hq as [p [<- Hp]].
        destruct (quoted_free p (Hlines p Hp)). now apply solid_free.
    + rewrite concat_cons.
      * rewrite <- (quoted_lines _ Hne). now rewrite !append_assoc.
      * destruct lines; [congruence | discriminate].
Qed.

Lemma msgstr_key_free (i : nat) :
  contains LF ("msgstr[" ++ index_to_string i ++ "]") = false.
Proof.
  now rewrite !contains_app, index_to_string_free.
Qed.

Lemma drawBlock_lines (foldLine : string -> Z -> list string)
  (this : Compiler) (block : Entry) (override : option Entry) :
  folds_within_line foldLine ->
  solid (_drawBlock foldLine this block override).
Proof.
  intros Hfold. unfold _drawBlock.
  assert (Hadd : forall key value, contains LF key = false ->
                   solid (_addPOString foldLine this key value))
    by (intros; now apply addPOString_solid).
  set (ov := match override with Some o => o | None => empty_entry end).
  destruct (or_comments (comments ov) (comments block)) as [c|];
    [destruct (truthy_str (_drawComments c)) eqn:Hc|];
    destruct (truthy_str (or_empty (or_str (msgctxt ov) (msgctxt block))));
    destruct (truthy_str
                (or_empty (or_str (msgid_plural ov) (msgid_plural block))));
    cbn [app]; (apply solid_concat; [discriminate|]);
    repeat (apply Forall_cons;
            [(now apply drawComments_solid) || (now apply Hadd)|]);
    try apply Forall_nil;
    apply Forall_mapi_from; intros i x; apply Hadd, msgstr_key_free.
Qed.

Lemma count_solid (s : string) :
  solid s -> count_occ string_dec (split_on LF s) EmptyString = 0%nat.
Proof.
  intros H. apply count_occ_not_In. intros Hin.
  unfold solid in H. rewrite Forall_forall in H. now apply (H _ Hin).
Qed.

Lemma count_blank_lines (blocks : list string) :
  blocks <> [] -> Forall solid blocks ->
  count_occ string_dec (split_on LF (String.concat nlnl blocks)) EmptyString
  = (List.length blocks - 1)%nat.
Proof.
  induction blocks as [|b blocks IH]; [congruence|]. intros _ H.
  inversion H as [|? ? Hb Hbs]; subst.
  destruct blocks as [|b' blocks].
  - simpl. now apply count_solid.
  - rewrite concat_cons by discriminate.
    change (nlnl ++ String.concat nlnl (b' :: blocks))
      with (String LF (String LF (String.concat nlnl (b' :: blocks)))).
    rewrite split_on_app_sep, count_occ_app, (count_solid b Hb).
    change (split_on LF (String LF (String.concat nlnl (b' :: blocks))))
      with (EmptyString :: split_on LF (String.concat nlnl (b' :: blocks))).
    rewrite count_occ_cons_eq by reflexivity.
    rewrite IH by (discriminate || assumption). simpl. lia.
Qed.

(** X9: no line of a block is empty, whatever the entry and the override
    hold: values are escaped, comment lines are prefixed and every item
    starts with its keyword or a quote.  A blank line of the output is
    therefore always a separator between two blocks, and the output has
    exactly one blank line per entry of the table.  [foldLine] is any
    function that brings no newline into the pieces of a text that has
    none. *)
Theorem output_blank_lines (formatCharset : option string -> string)
  (foldLine : string -> Z -> list string)
  (generateHeader : obj string -> string) :
  folds_within_line foldLine ->
  (forall this block override,
     solid (_drawBlock foldLine this block override))
  /\ (forall table options,
        no_null (or_obj (translations (table_or_empty table))) ->
        wf_table (or_obj (translations (table_or_empty table))) ->
        exists buf,
          returned
            (compilePO formatCharset foldLine generateHeader table options)
          = Ok buf
          /\ count_occ string_dec (split_on LF (buffer_text buf)) EmptyString
             = List.length
                 (listed_entries
                    (or_obj (translations (table_or_empty table))))).
Proof.
  intros Hfold. split; [intros; now apply drawBlock_lines|].
  intros table options Hnn Hwf.
  destruct (compilePO_blocks formatCharset foldLine generateHeader
              table options Hnn) as [buf [Hbuf Htext]].
  exists buf. split; [exact Hbuf|]. rewrite Htext.
  rewrite count_blank_lines.
  - cbn [List.length]. rewrite Nat.sub_succ, Nat.sub_0_r, length_map.
    apply Permutation_length.
    rewrite <- sort_response_perm. now apply enumerated_entries_perm.
  - discriminate.
  - constructor; [now apply drawBlock_lines|].
    rewrite Forall_forall. intros b Hb. apply in_map_iff in Hb.
    destruct Hb as [e [<- _]]. now apply drawBlock_lines.
Qed.

Lemma take_free (c : ascii) (n : nat) (s : string) :
  contains c s = false -> contains c (Shared.take n s) = false.
Proof.
  revert s. induction n as [|n IH]; intros [|a s]; simpl; auto.
  intros H. apply orb_false_iff in H. destruct H as [Ha Hs].
  now rewrite Ha, (IH s Hs).
Qed.

Lemma drop_free (c : ascii) (n : nat) (s : string) :
  contains c s = false -> contains c (Shared.drop n s) = false.
Proof.
  revert s. induction n as [|n IH]; intros [|a s]; simpl; auto.
  intros H. apply orb_false_iff in H. destruct H as [Ha Hs].
  now apply IH.
Qed.

Lemma shared_foldLine_within_line : folds_within_line Shared.foldLine.
Proof.
  intros v n Hv. unfold Shared.foldLine.
  destruct (n <=? 0)%Z; [now repeat constructor|].
  generalize (String.length v) as fuel. intros fuel. revert v Hv.
  induction fuel as [|fuel IH]; intros v Hv; simpl;
    [now repeat constructor|].
  destruct (String.length v <=? Z.to_nat n)%nat; [now repeat constructor|].
  constructor; [now apply take_free|]. apply IH. now apply drop_free.
Defined.

Lemma output_blank_lines_witness :
  exists buf,
    returned
      (compilePO Shared.formatCharset Shared.foldLine Shared.generateHeader
         (Some order_table) (Some (mkOptions (Some 4%Z) None)))
    = Ok buf
    /\ count_occ string_dec (split_on LF (buffer_text buf)) EmptyString
       = 3%nat.
Proof.
  destruct order_table_wf as [Hnn [Hwf _]].
  exact (proj2 (output_blank_lines Shared.formatCharset Shared.foldLine
                  Shared.generateHeader shared_foldLine_within_line)
           (Some order_table) (Some (mkOptions (Some 4%Z) None)) Hnn Hwf).
Defined.

(** ** The resolved charset *)

Lemma handleCharset_nonempty (formatCharset : option string -> string)
  (this : Compiler) :
  _charset (_handleCharset formatCharset this) <> EmptyString.
Proof.
  rewrite (handleCharset_eq formatCharset this _ _ _ eq_refl eq_refl eq_refl).
  destruct (map_params formatCharset _ _) as [cs params].
  destruct (truthy_str cs) eqn:Hcs; cbn [_charset].
  - now apply truthy_str_true.
  - destruct (charset (_table this)) as [s|]; simpl; [|discriminate].
    destruct (String.eqb_spec s EmptyString); simpl;
      [discriminate | assumption].
Qed.

(** X10: whatever [formatCharset] returns, the charset the compiler settles
    on is never the empty string; it is the value written back to
    [table.charset], and it decides how the buffer is built: by
    [Buffer.from] for "utf-8" and "ascii", and by [encoding.convert] called
    with exactly this charset for any other. *)
Theorem resolved_charset_encoding (formatCharset : option string -> string)
  (foldLine : string -> Z -> list string)
  (generateHeader : obj string -> string)
  (table : option Table) (options : option Options) (buf : Buffer) :
  let out := compilePO formatCharset foldLine generateHeader table options in
  let cs := _charset (new_Compiler formatCharset table options) in
  returned out = Ok buf ->
  cs <> EmptyString
  /\ table_after out
     = option_map (fun _ => _table (new_Compiler formatCharset table options))
         table
  /\ charset (_table (new_Compiler formatCharset table options)) = Some cs
  /\ match buf with
     | Buffer_from _ enc =>
         enc = "utf-8" /\ (cs = "utf-8" \/ cs = "ascii")
     | encoding_convert _ c =>
         c = cs /\ cs <> "utf-8" /\ cs <> "ascii"
     end.
Proof.
  intros out cs Hbuf. split; [|split; [|split]].
  - unfold cs. rewrite new_Compiler_eq. apply handleCharset_nonempty.
  - unfold out, compilePO. cbn [table_after]. now destruct table.
  - unfold cs. rewrite new_Compiler_eq. apply handleCharset_charset.
  - unfold out, compilePO in Hbuf. cbn [returned] in Hbuf.
    unfold compile in Hbuf. fold cs in Hbuf.
    destruct (compile_blocks foldLine generateHeader _) as [blocks|];
      [|discriminate].
    cbn [bind] in Hbuf.
    destruct (String.eqb_spec cs "utf-8") as [E1|E1];
      destruct (String.eqb_spec cs "ascii") as [E2|E2];
      cbn [orb] in Hbuf; injection Hbuf as <-; tauto.
Qed.

Lemma resolved_charset_encoding_witness :
  exists text,
    returned
      (compilePO Shared.formatCharset Shared.foldLine Shared.generateHeader
         (Some (mkTable (Some "Latin1") None None)) None)
    = Ok (encoding_convert text "latin1").
Proof.
  destruct (returned
              (compilePO Shared.formatCharset Shared.foldLine
                 Shared.generateHeader
                 (Some (mkTable (Some "Latin1") None None)) None))
    as [buf|] eqn:E; [|discriminate].
  destruct (resolved_charset_encoding Shared.formatCharset Shared.foldLine
              Shared.generateHeader
              (Some (mkTable (Some "Latin1") None None)) None buf E)
    as [_ [_ [_ Hkind]]].
  destruct buf as [text enc|text c].
  - destruct Hkind as [_ [H|H]]; discriminate.
  - destruct Hkind as [-> _]. now exists text.
Defined.

(** ** Reading back the header that [_handleCharset] wrote *)

Lemma split_on_parts_free (c : ascii) (s : string) :
  Forall (fun p => contains c p = false) (split_on c s).
Proof.
  induction s as [|a s IH]; simpl; [now repeat constructor|].
  destruct (Ascii.eqb_spec a c) as [->|Hc]; [now constructor|].
  destruct (split_on c s) as [|p ps].
  - constructor; [|constructor]. simpl. apply Ascii.eqb_neq in Hc.
    now rewrite Hc.
  - inversion IH as [|? ? Hp Hps]; subst. constructor; [|exact Hps].
    simpl. apply Ascii.eqb_neq in Hc. now rewrite Hc, Hp.
Qed.

Lemma concat_split (c : ascii) (s : string) :
  String.concat (str1 c) (split_on c s) = s.
Proof.
  induction s as [|a s IH]; [reflexivity|]. simpl.
  destruct (Ascii.eqb_spec a c) as [->|Hc].
  - rewrite concat_cons by apply split_on_nonempty. now rewrite IH.
  - pose proof (split_on_nonempty c s) as Hne.
    destruct (split_on c s) as [|p ps]; [congruence|].
    destruct ps as [|q ps]; simpl in *; now rewrite <- IH.
Qed.

Lemma split_on_space (c : ascii) (s : string) :
  c <> " "%char ->
  split_on c (String " " s)
  = String " " (hd EmptyString (split_on c s)) :: tl (split_on c s).
Proof.
  intros Hc. cbn [split_on].
  destruct (Ascii.eqb_spec " "%char c); [congruence|].
  pose proof (split_on_nonempty c s) as Hne.
  destruct (split_on c s); [congruence | reflexivity].
Qed.

Lemma split_join (q : string) (qs : list string) :
  Forall (fun p => contains ";" p = false) (q :: qs) ->
  split_on ";" (String.concat "; " (q :: qs)) = q :: map (String " ") qs.
Proof.
  revert q. induction qs as [|q' qs IH]; intros q H.
  - inversion H; subst. simpl. now apply split_on_free.
  - inversion H as [|? ? Hq Hqs]; subst.
    rewrite concat_cons by discriminate.
    change ("; " ++ String.concat "; " (q' :: qs))
      with (String ";" (String " " (String.concat "; " (q' :: qs)))).
    rewrite split_on_app_sep, (split_on_free ";" q Hq).
    rewrite split_on_space by discriminate.
    rewrite (IH q' Hqs). reflexivity.
Qed.

Lemma split_header (p0 : string) (qs : list string) :
  contains ";" p0 = false -> qs <> [] ->
  Forall (fun p => contains ";" p = false) qs ->
  split_on ";" (p0 ++ "; " ++ String.concat "; " qs)
  = p0 :: map (String " ") qs.
Proof.
  intros Hp Hne H. destruct qs as [|q qs]; [congruence|].
  change ("; " ++ String.concat "; " (q :: qs))
    with (String ";" (String " " (String.concat "; " (q :: qs)))).
  rewrite split_on_app_sep, (split_on_free ";" p0 Hp).
  rewrite split_on_space by discriminate.
  rewrite (split_join q qs H). reflexivity.
Qed.

Lemma is_charset_param_space (q : string) :
  is_charset_param (String " " q) = is_charset_param q.
Proof.
  unfold is_charset_param.
  rewrite split_on_space by discriminate. reflexivity.
Qed.

Lemma param_value_space (q : string) :
  param_value (String " " q) = param_value q.
Proof.
  unfold param_value. rewrite split_on_space by discriminate. reflexivity.
Qed.

Lemma charset_param_written (cs : string) :
  is_charset_param ("charset=" ++ cs) = true
  /\ param_value ("charset=" ++ cs) = cs.
Proof.
  unfold is_charset_param, param_value.
  change ("charset=" ++ cs) with ("charset" ++ String "=" cs).
  rewrite split_on_app_sep. split; [reflexivity|].
  simpl. apply (concat_split "=" cs).
Qed.

Lemma header_charset_spaced (qs : list string) :
  option_map param_value (find is_charset_param (map (String " ") qs))
  = option_map param_value (find is_charset_param qs).
Proof.
  induction qs as [|q qs IH]; [reflexivity|]. cbn [map find].
  rewrite is_charset_param_space.
  destruct (is_charset_param q); [|exact IH].
  cbn [option_map]. now rewrite param_value_space.
Qed.

Lemma find_overwrite (cs : string) (qs : list string) (p : string) :
  find is_charset_param qs = Some p ->
  option_map param_value (find is_charset_param (map (overwrite cs) qs))
  = Some cs.
Proof.
  induction qs as [|q qs IH]; [discriminate|]. cbn [map find].
  destruct (is_charset_param q) eqn:Hq.
  - intros _. destruct (charset_param_written cs) as [Hc Hv].
    replace (overwrite cs q) with ("charset=" ++ cs)
      by (unfold overwrite; now rewrite Hq).
    rewrite Hc. cbn [option_map]. now rewrite Hv.
  - replace (overwrite cs q) with q by (unfold overwrite; now rewrite Hq).
    rewrite Hq. exact IH.
Qed.

Lemma find_appended (cs : string) (qs : list string) :
  find is_charset_param qs = None ->
  option_map param_value
    (find is_charset_param (qs ++ [("charset=" ++ cs)%string])%list)
  = Some cs.
Proof.
  induction qs as [|q qs IH]; cbn [app find].
  - intros _. destruct (charset_param_written cs) as [Hc Hv].
    rewrite Hc. cbn [option_map]. now rewrite Hv.
  - destruct (is_charset_param q); [discriminate | exact IH].
Qed.

Lemma overwrite_free (cs : string) (qs : list string) :
  contains ";" cs = false ->
  Forall (fun p => contains ";" p = false) qs ->
  Forall (fun p => contains ";" p = false) (map (overwrite cs) qs).
Proof.
  intros Hcs H. induction H as [|q qs Hq _ IH]; simpl; constructor; auto.
  unfold overwrite. destruct (is_charset_param q); [|exact Hq].
  now rewrite contains_app, Hcs.
Qed.

Lemma header_parts_free (hs : obj string) :
  contains ";" (hd EmptyString (content_type_parts hs)) = false
  /\ Forall (fun p => contains ";" p = false) (tl (content_type_parts hs)).
Proof.
  unfold content_type_parts.
  pose proof (split_on_parts_free ";"
                (or_empty (or_str (obj_get hs "content-type")
                             (Some "text/plain")))) as H.
  destruct (split_on ";" _) as [|p ps]; [now split|].
  inversion H; subst. now split.
Qed.

Lemma header_read_back (hs : obj string) (p0 : string) (qs : list string) :
  contains ";" p0 = false -> qs <> [] ->
  Forall (fun p => contains ";" p = false) qs ->
  header_charset
    (obj_set hs "content-type" (p0 ++ "; " ++ String.concat "; " qs))
  = option_map param_value (find is_charset_param qs).
Proof.
  intros Hp Hne H. unfold header_charset, content_type_parts.
  rewrite obj_get_set.
  assert (E : or_empty
                (or_str (Some (p0 ++ "; " ++ String.concat "; " qs))
                   (Some "text/plain"))
              = p0 ++ "; " ++ String.concat "; " qs).
  { unfold or_str.
    destruct (String.eqb_spec (p0 ++ "; " ++ String.concat "; " qs)
                EmptyString) as [E|_]; [|reflexivity].
    destruct p0; discriminate. }
  rewrite E, (split_header p0 qs Hp Hne H). cbn [tl].
  apply header_charset_spaced.
Qed.

Lemma overwrite_none (cs : string) (qs : list string) :
  find is_charset_param qs = None -> map (overwrite cs) qs = qs.
Proof.
  induction qs as [|q qs IH]; [reflexivity|]. cbn [find map].
  unfold overwrite at 1.
  destruct (is_charset_param q); [discriminate|].
  intros H. now rewrite (IH H).
Qed.

(** A header written back from parameters none of which is [charset=] has
    no [charset=] parameter when it is read again. *)
Lemma header_without_charset (hs : obj string) (p0 : string)
  (qs : list string) :
  contains ";" p0 = false ->
  Forall (fun p => contains ";" p = false) qs ->
  find is_charset_param qs = None ->
  header_charset
    (obj_set hs "content-type" (p0 ++ "; " ++ String.concat "; " qs))
  = None.
Proof.
  intros Hp H Hfind. destruct qs as [|q qs].
  - unfold header_charset, content_type_parts. rewrite obj_get_set.
    assert (E : or_empty
                  (or_str (Some (p0 ++ "; " ++ String.concat "; " []))
                     (Some "text/plain"))
                = p0 ++ String ";" " ").
    { unfold or_str. cbn [String.concat].
      destruct (String.eqb_spec (p0 ++ "; " ++ EmptyString) EmptyString)
        as [E|_]; [destruct p0; discriminate | reflexivity]. }
    rewrite E, split_on_app_sep, (split_on_free ";" p0 Hp). reflexivity.
  - rewrite header_read_back; [now rewrite Hfind | exact Hp | discriminate
                              | exact H].
Qed.

(** C1, where the code departs from it: when the table's own [charset]
    resolves, that is, [formatCharset] gives a name for it, this name is
    the resolved charset, it is stored in the table, and it overwrites every
    [charset=] parameter of the [content-type] header.  But it is not
    injected: a header that has no [charset=] parameter is written back with
    its parameters as they are, and read again it still has none. *)
Theorem table_charset_resolution (formatCharset : option string -> string)
  (table : option Table) (options : option Options) :
  let t := table_or_empty table in
  let hs := or_obj (headers t) in
  let parts := content_type_parts hs in
  let compiler := new_Compiler formatCharset table options in
  let hs' := or_obj (headers (_table compiler)) in
  formatCharset (charset t) <> EmptyString ->
  _charset compiler = formatCharset (charset t)
  /\ charset (_table compiler) = Some (_charset compiler)
  /\ obj_get hs' "content-type"
     = Some (with_charset (_charset compiler) parts)
  /\ (header_charset hs = None ->
      obj_get hs' "content-type"
      = Some (hd EmptyString parts ++ "; " ++ String.concat "; " (tl parts))
      /\ header_charset hs' = None).
Proof.
  intros t hs parts compiler hs' Hfc. apply truthy_str_true in Hfc.
  subst hs' compiler. rewrite new_Compiler_eq.
  set (this := mkCompiler _ _ _).
  rewrite (handleCharset_set formatCharset this _ _ _
             eq_refl eq_refl eq_refl Hfc).
  cbn [_charset _table charset headers or_obj translations].
  fold t. fold hs. fold parts.
  split; [reflexivity|]. split; [reflexivity|].
  split; [apply obj_get_set|].
  intros Hnone. unfold header_charset in Hnone. fold parts in Hnone.
  assert (Hfind : find is_charset_param (tl parts) = None).
  { destruct (find is_charset_param (tl parts)); [discriminate | reflexivity]. }
  unfold with_charset. rewrite (overwrite_none _ _ Hfind).
  split; [apply obj_get_set|].
  destruct (header_parts_free hs) as [Hp0 Hfree].
  now apply header_without_charset.
Qed.

Lemma table_charset_resolution_witness :
  _charset
    (new_Compiler Shared.formatCharset
       (Some (mkTable (Some "UTF8")
                (Some [("content-type", "text/plain; format=flowed")])
                None))
       None)
  = "utf-8"
  /\ obj_get
       (or_obj
          (headers
             (_table
                (new_Compiler Shared.formatCharset
                   (Some (mkTable (Some "UTF8")
                            (Some [("content-type",
                                    "text/plain; format=flowed")])
                            None))
                   None))))
       "content-type"
     = Some "text/plain;  format=flowed"
  /\ header_charset
       (or_obj
          (headers
             (_table
                (new_Compiler Shared.formatCharset
                   (Some (mkTable (Some "UTF8")
                            (Some [("content-type",
                                    "text/plain; format=flowed")])
                            None))
                   None))))
     = None
  /\ obj_get
       (or_obj
          (headers
             (_table
                (new_Compiler Shared.formatCharset
                   (Some (mkTable (Some "UTF8")
                            (Some [("content-type",
                                    "text/plain; charset=latin1")])
                            None))
                   None))))
       "content-type"
     = Some "text/plain; charset=utf-8".
Proof.
  destruct
    (table_charset_resolution Shared.formatCharset
       (Some (mkTable (Some "UTF8")
                (Some [("content-type", "text/plain; format=flowed")])
                None))
       None ltac:(discriminate)) as [Hr [_ [_ Hnone]]].
  destruct (Hnone eq_refl) as [Hct Hread].
  split; [exact Hr|]. split; [exact Hct|]. split; [exact Hread|].
  exact
    (proj1 (proj2 (proj2
       (table_charset_resolution Shared.formatCharset
          (Some (mkTable (Some "UTF8")
                   (Some [("content-type", "text/plain; charset=latin1")])
                   None))
          None ltac:(discriminate))))).
Defined.

(** X11: where [_handleCharset] writes a [charset=] parameter, reading the
    header back gives the resolved charset: if the header had a [charset=]
    parameter, or the table's own charset is not set, then the first
    [charset=] parameter of the rewritten [content-type] header has exactly
    the resolved charset as its value.  This needs a resolved charset
    without [;], and a [formatCharset] that returns a non-empty name for a
    non-empty one. *)
Theorem header_charset_read_back (formatCharset : option string -> string)
  (table : option Table) (options : option Options) :
  let t := table_or_empty table in
  let hs := or_obj (headers t) in
  let compiler := new_Compiler formatCharset table options in
  (forall s, s <> EmptyString -> formatCharset (Some s) <> EmptyString) ->
  header_charset hs <> None \/ formatCharset (charset t) = EmptyString ->
  contains ";" (_charset compiler) = false ->
  header_charset (or_obj (headers (_table compiler)))
  = Some (_charset compiler).
Proof.
  intros t hs compiler Hset Hcase. unfold compiler.
  rewrite new_Compiler_eq.
  set (this := mkCompiler _ _ _).
  destruct (header_parts_free hs) as [Hp0 Hfree].
  destruct (truthy_str (formatCharset (charset t))) eqn:Hfc.
  - destruct Hcase as [Hh|Hf];
      [|rewrite Hf in Hfc; discriminate].
    unfold header_charset in Hh.
    destruct (find is_charset_param (tl (content_type_parts hs)))
      as [p|] eqn:Hfind; [|now destruct Hh].
    rewrite (handleCharset_set formatCharset this _ _ _
               eq_refl eq_refl eq_refl Hfc).
    cbn [_charset _table headers or_obj]. intros Hcs.
    unfold with_charset. rewrite header_read_back.
    + exact (find_overwrite _ _ p Hfind).
    + exact Hp0.
    + intros E. apply map_eq_nil in E.
      change (tl (content_type_parts hs) = []) in E.
      rewrite E in Hfind. discriminate.
    + now apply overwrite_free.
  - destruct (find is_charset_param (tl (content_type_parts hs)))
      as [p|] eqn:Hfind.
    + assert (Hcs' : truthy_str
                       (formatCharset
                          (or_str (Some (trim (param_value p)))
                             (Some "utf-8"))) = true).
      { destruct (header_value_set (param_value p)) as [s [-> Hs]].
        apply truthy_str_true. now apply Hset. }
      rewrite (handleCharset_header formatCharset this _ _ _
                 eq_refl eq_refl eq_refl p Hfc Hfind Hcs').
      cbn [_charset _table headers or_obj]. intros Hcs.
      unfold with_charset. rewrite header_read_back.
      * exact (find_overwrite _ _ p Hfind).
      * exact Hp0.
      * intros E. apply map_eq_nil in E.
        change (tl (content_type_parts hs) = []) in E.
        rewrite E in Hfind. discriminate.
      * now apply overwrite_free.
    + rewrite (handleCharset_default formatCharset this _ _ _
                 eq_refl eq_refl eq_refl Hfc Hfind).
      cbn [_charset _table headers or_obj]. intros Hcs.
      rewrite header_read_back.
      * now apply find_appended.
      * exact Hp0.
      * intros E. apply app_eq_nil in E. destruct E as [_ E]. discriminate.
      * apply Forall_app. split; [exact Hfree|].
        constructor; [|constructor].
        change (contains ";"
                  (or_empty (or_str (charset t) (Some "utf-8")))
                = false) in Hcs.
        change (contains ";"
                  ("charset="
                   ++ or_empty (or_str (charset t) (Some "utf-8")))
                = false).
        now rewrite contains_app, Hcs.
Qed.

Lemma header_charset_read_back_witness :
  header_charset
    (or_obj
       (headers
          (_table
             (new_Compiler Shared.formatCharset
                (Some (mkTable (Some "UTF8")
                         (Some [("content-type",
                                 "text/plain; format=flowed; charset=latin1")])
                         None))
                None))))
  = Some "utf-8"
  /\ header_charset
       (or_obj
          (headers (_table (new_Compiler Shared.formatCharset None None))))
     = Some "utf-8".
Proof.
  split.
  - apply (header_charset_read_back Shared.formatCharset
             (Some (mkTable (Some "UTF8")
                      (Some [("content-type",
                              "text/plain; format=flowed; charset=latin1")])
                      None))
             None shared_formatCharset_set).
    + left. discriminate.
    + reflexivity.
  - apply (header_charset_read_back Shared.formatCharset None None
             shared_formatCharset_set).
    + right. reflexivity.
    + reflexivity.
Defined.

(** ** Compiling a table twice *)

Lemma with_defaults_idem (options : option Options) :
  with_defaults (option_map (fun _ => with_defaults options) options)
  = with_defaults options.
Proof.
  destruct options as [[[n|] [s|]]|]; reflexivity.
Qed.

Lemma obj_set_idem {A} (o : obj A) (k : string) (v v' : A) :
  obj_set (obj_set o k v) k v' = obj_set o k v'.
Proof.
  induction o as [|[k0 v0] o IH]; simpl.
  - now rewrite String.eqb_refl.
  - destruct (String.eqb_spec k0 k) as [->|Hk]; simpl.
    + now rewrite String.eqb_refl.
    + apply String.eqb_neq in Hk. now rewrite Hk, IH.
Qed.

Lemma overwrite_written (cs : string) (qs : list string) :
  Forall (fun q => q = "charset=" ++ cs) qs ->
  map (overwrite cs) (map (String " ") qs) = qs.
Proof.
  induction 1 as [|q qs Hq _ IH]; [reflexivity|]. cbn [map].
  rewrite IH. f_equal. unfold overwrite.
  rewrite is_charset_param_space. subst q.
  now destruct (charset_param_written cs) as [-> _].
Qed.

Lemma written_free (cs : string) (qs : list string) :
  contains ";" cs = false ->
  Forall (fun q => q = "charset=" ++ cs) qs ->
  Forall (fun p => contains ";" p = false) qs.
Proof.
  intros Hcs H. rewrite Forall_forall in H |- *. intros q Hq.
  rewrite (H q Hq). now rewrite contains_app, Hcs.
Qed.

Lemma handleCharset_fixed (formatCharset : option string -> string)
  (hs : obj string) (tr : option (obj ContextValue)) (o : Options)
  (c0 cs p0 : string) (qs : list string) :
  formatCharset (Some cs) = cs -> cs <> EmptyString ->
  contains ";" cs = false -> contains ";" p0 = false ->
  qs <> [] -> Forall (fun q => q = "charset=" ++ cs) qs ->
  _handleCharset formatCharset
    (mkCompiler
       (mkTable (Some cs)
          (Some (obj_set hs "content-type"
                   (p0 ++ "; " ++ String.concat "; " qs)))
          tr)
       o c0)
  = mkCompiler
      (mkTable (Some cs)
         (Some (obj_set hs "content-type"
                  (p0 ++ "; " ++ String.concat "; " qs)))
         tr)
      o cs.
Proof.
  intros Hfix Hne Hcs Hp0 Hqs Hall.
  assert (Htruthy : truthy_str (formatCharset (Some cs)) = true).
  { rewrite Hfix. now apply truthy_str_true. }
  set (this := mkCompiler _ o c0).
  pose proof (handleCharset_set formatCharset this _ _ _
                eq_refl eq_refl eq_refl Htruthy) as Hs.
  rewrite Hs. unfold this.
  cbn [_table _options charset headers translations or_obj].
  rewrite Hfix, obj_set_idem. do 3 f_equal.
  unfold with_charset, content_type_parts. rewrite obj_get_set.
  assert (E : or_empty
                (or_str (Some (p0 ++ "; " ++ String.concat "; " qs))
                   (Some "text/plain"))
              = p0 ++ "; " ++ String.concat "; " qs).
  { unfold or_str.
    destruct (String.eqb_spec (p0 ++ "; " ++ String.concat "; " qs)
                EmptyString) as [E|_]; [|reflexivity].
    destruct p0; discriminate. }
  rewrite E, (split_header p0 qs Hp0 Hqs (written_free cs qs Hcs Hall)).
  cbn [hd tl]. now rewrite overwrite_written.
Qed.

Lemma overwrite_all (cs : string) (qs : list string) :
  Forall (fun p => is_charset_param p = true) qs ->
  Forall (fun q => q = "charset=" ++ cs) (map (overwrite cs) qs).
Proof.
  induction 1 as [|q qs Hq _ IH]; simpl; constructor; auto.
  unfold overwrite. now rewrite Hq.
Qed.

Lemma first_call_shape (formatCharset : option string -> string)
  (t0 : Table) (options : option Options) :
  let parts := content_type_parts (or_obj (headers t0)) in
  let compiler := new_Compiler formatCharset (Some t0) options in
  (forall s, s <> EmptyString -> formatCharset (Some s) <> EmptyString) ->
  Forall (fun p => is_charset_param p = true) (tl parts) ->
  tl parts <> [] \/ formatCharset (charset t0) = EmptyString ->
  exists qs,
    qs <> [] /\ Forall (fun q => q = "charset=" ++ _charset compiler) qs
    /\ compiler
       = mkCompiler
           (mkTable (Some (_charset compiler))
              (Some (obj_set (or_obj (headers t0)) "content-type"
                       (hd EmptyString parts ++ "; "
                        ++ String.concat "; " qs)))
              (Some (or_obj (translations t0))))
           (with_defaults options) (_charset compiler).
Proof.
  intros parts compiler Hset Hall Hcase. unfold compiler.
  rewrite new_Compiler_eq. cbn [table_or_empty].
  set (this := mkCompiler _ _ _).
  destruct (truthy_str (formatCharset (charset t0))) eqn:Hfc.
  - rewrite (handleCharset_set formatCharset this _ _ _
               eq_refl eq_refl eq_refl Hfc).
    cbn [_charset]. exists (map (overwrite (formatCharset (charset t0)))
                              (tl parts)).
    split; [|split; [now apply overwrite_all | reflexivity]].
    intros E. apply map_eq_nil in E.
    destruct Hcase as [H|H]; [now apply H|].
    rewrite H in Hfc. discriminate.
  - destruct (find is_charset_param (tl parts)) as [p|] eqn:Hfind.
    + assert (Hcs' : truthy_str
                       (formatCharset
                          (or_str (Some (trim (param_value p)))
                             (Some "utf-8"))) = true).
      { destruct (header_value_set (param_value p)) as [s [-> Hs]].
        apply truthy_str_true. now apply Hset. }
      rewrite (handleCharset_header formatCharset this _ _ _
                 eq_refl eq_refl eq_refl p Hfc Hfind Hcs').
      cbn [_charset].
      exists (map (overwrite
                     (formatCharset
                        (or_str (Some (trim (param_value p)))
                           (Some "utf-8"))))
                (tl parts)).
      split; [|split; [now apply overwrite_all | reflexivity]].
      intros E. apply map_eq_nil in E. rewrite E in Hfind. discriminate.
    + assert (Hnil : tl parts = []).
      { destruct (tl parts) as [|q qs]; [reflexivity|].
        inversion Hall as [|? ? Hq _]; subst. simpl in Hfind.
        rewrite Hq in Hfind. discriminate. }
      rewrite (handleCharset_default formatCharset this _ _ _
                 eq_refl eq_refl eq_refl Hfc Hfind).
      cbn [_charset].
      exists (tl parts
              ++ [("charset="
                   ++ or_empty (or_str (charset t0) (Some "utf-8")))%string])%list.
      split; [|split; [|reflexivity]].
      * intros E. apply app_eq_nil in E. destruct E as [_ E]. discriminate.
      * rewrite Hnil. constructor; [reflexivity | constructor].
Qed.

(** X12: compiling is idempotent on what it leaves behind when the
    [content-type] header has only [charset=] parameters: a second call on
    the table and the options object that a first call wrote to returns the
    same buffer and leaves both objects as they are.  This needs a first
    call that writes a [charset=] parameter, a resolved charset without [;]
    that [formatCharset] maps to itself, and a [formatCharset] that returns
    a non-empty name for a non-empty one. *)
Theorem compile_twice (formatCharset : option string -> string)
  (foldLine : string -> Z -> list string)
  (generateHeader : obj string -> string)
  (t0 : Table) (options : option Options) :
  let parts := content_type_parts (or_obj (headers t0)) in
  let cs := _charset (new_Compiler formatCharset (Some t0) options) in
  let out := compilePO formatCharset foldLine generateHeader (Some t0)
               options in
  (forall s, s <> EmptyString -> formatCharset (Some s) <> EmptyString) ->
  formatCharset (Some cs) = cs -> contains ";" cs = false ->
  Forall (fun p => is_charset_param p = true) (tl parts) ->
  tl parts <> [] \/ formatCharset (charset t0) = EmptyString ->
  compilePO formatCharset foldLine generateHeader
    (table_after out) (options_after out)
  = out.
Proof.
  intros parts cs out Hset Hfix Hcs Hall Hcase.
  destruct (first_call_shape formatCharset t0 options Hset Hall Hcase)
    as [qs [Hqs [Hwritten E]]].
  fold cs in Hwritten, E. fold parts in E.
  assert (Hne : cs <> EmptyString).
  { unfold cs. rewrite new_Compiler_eq. apply handleCharset_nonempty. }
  destruct (header_parts_free (or_obj (headers t0))) as [Hp0 _].
  fold parts in Hp0.
  assert (E2 : new_Compiler formatCharset (table_after out)
                 (options_after out)
               = new_Compiler formatCharset (Some t0) options).
  { unfold out, compilePO. cbn [table_after options_after].
    rewrite new_Compiler_eq. cbn [table_or_empty].
    replace (with_defaults
               match options with
               | Some _ =>
                   Some (_options (new_Compiler formatCharset (Some t0)
                                     options))
               | None => None
               end)
      with (with_defaults options).
    - rewrite E. cbn [_table charset headers translations or_obj].
      now apply handleCharset_fixed.
    - rewrite <- (with_defaults_idem options).
      destruct (new_Compiler_table formatCharset (Some t0) options)
        as [_ ->].
      now destruct options. }
  unfold compilePO at 1. rewrite E2.
  unfold out, compilePO. cbn [table_after options_after]. f_equal.
  now destruct options.
Qed.

Lemma compile_twice_witness :
  compilePO Shared.formatCharset Shared.foldLine Shared.generateHeader
    (table_after
       (compilePO Shared.formatCharset Shared.foldLine Shared.generateHeader
          (Some (mkTable None
                   (Some [("content-type", "text/plain; charset=UTF8")])
                   (Some order_translations)))
          (Some (mkOptions None None))))
    (options_after
       (compilePO Shared.formatCharset Shared.foldLine Shared.generateHeader
          (Some (mkTable None
                   (Some [("content-type", "text/plain; charset=UTF8")])
                   (Some order_translations)))
          (Some (mkOptions None None))))
  = compilePO Shared.formatCharset Shared.foldLine Shared.generateHeader
      (Some (mkTable None
               (Some [("content-type", "text/plain; charset=UTF8")])
               (Some order_translations)))
      (Some (mkOptions None None)).
Proof.
  apply (compile_twice Shared.formatCharset Shared.foldLine
           Shared.generateHeader
           (mkTable None
              (Some [("content-type", "text/plain; charset=UTF8")])
              (Some order_translations))
           (Some (mkOptions None None)) shared_formatCharset_set).
  - reflexivity.
  - reflexivity.
  - constructor; [reflexivity | constructor].
  - left. discriminate.
Defined.

(** ** Folding switched off *)

Lemma addPOString_fold_off (foldLine1 foldLine2 : string -> Z -> list string)
  (this : Compiler) (n : Z) (key : string) (value : option string) :
  foldLength (_options this) = Some n -> (n <= 0)%Z ->
  _addPOString foldLine1 this key value
  = _addPOString foldLine2 this key value.
Proof.
  intros Hn Hle. unfold _addPOString. rewrite Hn.
  destruct (Z.ltb_spec 0 n); [lia | reflexivity].
Qed.

Lemma drawBlock_fold_off (foldLine1 foldLine2 : string -> Z -> list string)
  (this : Compiler) (n : Z) (block : Entry) (override : option Entry) :
  foldLength (_options this) = Some n -> (n <= 0)%Z ->
  _drawBlock foldLine1 this block override
  = _drawBlock foldLine2 this block override.
Proof.
  intros Hn Hle. unfold _drawBlock.
  rewrite (mapi_from_ext
             (fun i m =>
                _addPOString foldLine1 this
                  ("msgstr[" ++ index_to_string i ++ "]")
                  (or_str m (Some EmptyString)))
             (fun i m =>
                _addPOString foldLine2 this
                  ("msgstr[" ++ index_to_string i ++ "]")
                  (or_str m (Some EmptyString))))
    by (intros; now apply (addPOString_fold_off _ _ this n)).
  rewrite !(fun k v =>
              addPOString_fold_off foldLine1 foldLine2 this n k v Hn Hle).
  reflexivity.
Qed.

(** X13: a [foldLength] of 0 or less given in the options is kept by the
    constructor (only a missing [foldLength] becomes 76) and switches
    folding off for the whole output: [foldLine] is never consulted, so the
    outcome is the same whatever that function does. *)
Theorem fold_off_independent (formatCharset : option string -> string)
  (foldLine1 foldLine2 : string -> Z -> list string)
  (generateHeader : obj string -> string)
  (table : option Table) (o : Options) (n : Z) :
  foldLength o = Some n -> (n <= 0)%Z ->
  foldLength (_options (new_Compiler formatCharset table (Some o))) = Some n
  /\ compilePO formatCharset foldLine1 generateHeader table (Some o)
     = compilePO formatCharset foldLine2 generateHeader table (Some o).
Proof.
  intros Hn Hle.
  assert (Hkept : foldLength
                    (_options (new_Compiler formatCharset table (Some o)))
                  = Some n).
  { destruct (new_Compiler_table formatCharset table (Some o)) as [_ ->].
    unfold with_defaults. cbn [foldLength]. now rewrite Hn. }
  split; [exact Hkept|].
  unfold compilePO. f_equal. unfold compile, compile_blocks.
  set (this := new_Compiler formatCharset table (Some o)) in *.
  rewrite (drawBlock_fold_off foldLine1 foldLine2 this n _ _ Hkept Hle).
  destruct (collect _ _) as [response|]; [|reflexivity]. cbn [bind].
  destruct (entries_or_throw response) as [entries|]; [|reflexivity].
  cbn [bind].
  rewrite (map_ext (fun r => _drawBlock foldLine1 this r None)
             (fun r => _drawBlock foldLine2 this r None))
    by (intros; now apply (drawBlock_fold_off _ _ this n)).
  reflexivity.
Qed.

Lemma fold_off_independent_witness :
  compilePO Shared.formatCharset Shared.foldLine Shared.generateHeader
    (Some order_table) (Some (mkOptions (Some 0%Z) None))
  = compilePO Shared.formatCharset (fun text _ => [text; text])
      Shared.generateHeader (Some order_table)
      (Some (mkOptions (Some 0%Z) None)).
Proof.
  exact (proj2 (fold_off_independent Shared.formatCharset Shared.foldLine
                  (fun text _ => [text; text]) Shared.generateHeader
                  (Some order_table) (mkOptions (Some 0%Z) None) 0%Z
                  eq_refl ltac:(lia))).
Defined.

(** ** When the compiler throws *)

Lemma typeof_object (p : jsprim) :
  (typeof_prim p =? "object")%string = true -> p = JNull.
Proof.
  destruct p; simpl; (reflexivity || discriminate).
Qed.

Lemma collect_throws (t : obj ContextValue) (keys : list string) :
  collect t keys = TypeError <->
  exists k, In k keys /\ obj_get t k = Some (ContextPrim JNull).
Proof.
  induction keys as [|k keys IH]; simpl.
  - split; [discriminate | intros [k [[] _]]].
  - destruct (obj_get t k) as [[p|o]|] eqn:Hk.
    + destruct (typeof_prim p =? "object")%string eqn:Hp.
      * apply typeof_object in Hp. subst p. split; [|reflexivity].
        intros _. exists k. split; [now left | exact Hk].
      * rewrite IH. split.
        -- intros [k' [Hin Hk']]. exists k'. split; [now right | exact Hk'].
        -- intros [k' [[->|Hin] Hk']].
           ++ rewrite Hk in Hk'. injection Hk' as ->. discriminate.
           ++ now exists k'.
    + destruct (collect t keys) as [rest|] eqn:Hc; cbn [bind].
      * split; [discriminate|].
        intros [k' [[->|Hin] Hk']]; [congruence|].
        assert (H0 : @Ok (list (option Entry)) rest = TypeError)
          by (apply (proj2 IH); now exists k').
        discriminate.
      * split; [|reflexivity]. intros _.
        destruct (proj1 IH eq_refl) as [k' [Hin Hk']].
        exists k'. split; [now right | exact Hk'].
    + rewrite IH. split.
      * intros [k' [Hin Hk']]. exists k'. split; [now right | exact Hk'].
      * intros [k' [[->|Hin] Hk']]; [congruence | now exists k'].
Qed.

Lemma collect_in (t : obj ContextValue) (keys : list string)
  (r : list (option Entry)) (x : option Entry) :
  collect t keys = Ok r ->
  (In x r <->
   exists k o, In k keys /\ obj_get t k = Some (ContextObj o)
               /\ In x (collect_context k o)).
Proof.
  revert r. induction keys as [|k keys IH]; simpl; intros r Hr.
  - injection Hr as <-. split; [intros [] | intros [k [o [[] _]]]].
  - destruct (obj_get t k) as [[p|o]|] eqn:Hk.
    + destruct (typeof_prim p =? "object")%string; [discriminate|].
      rewrite (IH r Hr). split.
      * intros [k' [o [Hin H]]]. exists k', o. split; [now right | exact H].
      * intros [k' [o [[->|Hin] [Hk' H]]]]; [congruence|].
        now exists k', o.
    + destruct (collect t keys) as [rest|]; [|discriminate].
      cbn [bind] in Hr. injection Hr as <-.
      rewrite in_app_iff, (IH rest eq_refl). split.
      * intros [H|[k' [o' [Hin H]]]].
        -- exists k, o. split; [now left | now split].
        -- exists k', o'. split; [now right | exact H].
      * intros [k' [o' [[->|Hin] [Hk' H]]]].
        -- left. rewrite Hk in Hk'. now injection Hk' as ->.
        -- right. now exists k', o'.
    + rewrite (IH r Hr). split.
      * intros [k' [o [Hin H]]]. exists k', o. split; [now right | exact H].
      * intros [k' [o [[->|Hin] [Hk' H]]]]; [congruence|].
        now exists k', o.
Qed.

Lemma collect_context_null (msgctxt : string) (o : obj EntryValue) :
  In None (collect_context msgctxt o) <->
  exists msgid, In msgid (Object_keys o)
                /\ obj_get o msgid = Some (EntryPrim JNull)
                /\ is_pseudo msgctxt msgid = false.
Proof.
  unfold collect_context. rewrite in_flat_map. unfold is_pseudo.
  split.
  - intros [msgid [Hin H]]. exists msgid. split; [exact Hin|].
    destruct (obj_get o msgid) as [v|]; [|contradiction].
    destruct v as [p|e]; simpl in H.
    + destruct (typeof_prim p =? "object")%string eqn:Hp; [|contradiction].
      apply typeof_object in Hp. subst p.
      destruct ((msgctxt =? EmptyString) && (msgid =? EmptyString))%string;
        [contradiction | now split].
    + destruct ((msgctxt =? EmptyString) && (msgid =? EmptyString))%string;
        [contradiction|].
      destruct H as [H|[]]. discriminate.
  - intros [msgid [Hin [Hk Hp]]]. exists msgid. split; [exact Hin|].
    rewrite Hk. simpl. rewrite Hp. now left.
Qed.

Lemma entries_or_throw_null (l : list (option Entry)) :
  entries_or_throw l = TypeError <-> In None l.
Proof.
  induction l as [|[e|] l IH]; simpl.
  - split; [discriminate | intros []].
  - destruct (entries_or_throw l); cbn [bind].
    + split; [discriminate|]. intros [H|H]; [discriminate|].
      now apply IH in H.
    + split; [|reflexivity]. intros _. right. now apply IH.
  - split; [|reflexivity]. intros _. now left.
Qed.

(** X14: the one way [compilePO] can throw: it raises a TypeError exactly
    when some context of [translations] is [null], or some entry other than
    the [("", "")] one is [null].  A [null] at [("", "")] is skipped like
    the header pseudo-entry, and every other value that is not an object is
    skipped as well. *)
Theorem compilePO_throws_iff (formatCharset : option string -> string)
  (foldLine : string -> Z -> list string)
  (generateHeader : obj string -> string)
  (table : option Table) (options : option Options) :
  let trs := or_obj (translations (table_or_empty table)) in
  wf_table trs ->
  (returned (compilePO formatCharset foldLine generateHeader table options)
   = TypeError
   <-> (exists msgctxt, In (msgctxt, ContextPrim JNull) trs)
       \/ (exists msgctxt o msgid,
             In (msgctxt, ContextObj o) trs
             /\ In (msgid, EntryPrim JNull) o
             /\ is_pseudo msgctxt msgid = false)).
Proof.
  intros trs [Hwf Hctx].
  destruct (new_Compiler_table formatCharset table options) as [Ht _].
  unfold compilePO. cbn [returned]. unfold compile, compile_blocks.
  rewrite Ht. cbn [or_obj]. fold trs.
  assert (Hkeys : forall k, In k (Object_keys trs) <-> In k (map fst trs)).
  { intros k. split; apply Permutation_in;
      [|apply Permutation_sym]; apply Object_keys_perm. }
  destruct (collect trs (Object_keys trs)) as [r|] eqn:Hc; cbn [bind].
  - destruct (entries_or_throw r) as [es|] eqn:He; cbn [bind].
    + split.
      { destruct ((_ =? "utf-8") || (_ =? "ascii"))%string; discriminate. }
      intros [[k Hk]|[k [o [m [Hk [Hm Hp]]]]]]; exfalso.
      * assert (Hthrow : collect trs (Object_keys trs) = TypeError).
        { apply collect_throws. exists k. split.
          - apply Hkeys. now apply (in_map fst) in Hk.
          - now apply obj_get_wf. }
        congruence.
      * assert (Hnull : In None r).
        { apply (collect_in trs _ r None Hc). exists k, o.
          split; [|split].
          - apply Hkeys. now apply (in_map fst) in Hk.
          - now apply obj_get_wf.
          - apply collect_context_null. exists m. split; [|split].
            + apply (Permutation_in _
                       (Permutation_sym (Object_keys_perm o))).
              now apply (in_map fst) in Hm.
            + rewrite Forall_forall in Hctx. specialize (Hctx _ Hk).
              now apply obj_get_wf.
            + exact Hp. }
        apply entries_or_throw_null in Hnull. congruence.
    + split; [|reflexivity]. intros _. right.
      apply entries_or_throw_null in He.
      apply (collect_in trs _ r None Hc) in He.
      destruct He as [k [o [_ [Hk Hnull]]]].
      apply collect_context_null in Hnull.
      destruct Hnull as [m [_ [Hm Hp]]].
      exists k, o, m. split; [now apply obj_get_In|].
      split; [now apply obj_get_In | exact Hp].
  - split; [|reflexivity]. intros _. left.
    apply collect_throws in Hc. destruct Hc as [k [_ Hk]].
    exists k. now apply obj_get_In.
Qed.

Lemma compilePO_throws_iff_witness :
  returned
    (compilePO Shared.formatCharset Shared.foldLine Shared.generateHeader
       (Some (mkTable None None
                (Some [("", ContextObj [("", EntryPrim JNull);
                                        ("x", EntryPrim (JStr "text"))]);
                       ("menu", ContextPrim JUndefined)])))
       None)
  <> TypeError
  /\ returned
       (compilePO Shared.formatCharset Shared.foldLine Shared.generateHeader
          (Some (mkTable None None
                   (Some [("", ContextObj [("x", EntryPrim JNull)])])))
          None)
     = TypeError.
Proof.
  split.
  - intros H.
    apply (proj1 (compilePO_throws_iff Shared.formatCharset Shared.foldLine
                    Shared.generateHeader
                    (Some (mkTable None None
                             (Some [("", ContextObj
                                           [("", EntryPrim JNull);
                                            ("x", EntryPrim (JStr "text"))]);
                                    ("menu", ContextPrim JUndefined)])))
                    None
                    ltac:(split;
                          [repeat (apply NoDup_cons;
                                   [simpl; intuition discriminate|]);
                           apply NoDup_nil
                          |repeat (apply Forall_cons; [simpl|]);
                           try apply Forall_nil; try exact I;
                           repeat (apply NoDup_cons;
                                   [simpl; intuition discriminate|]);
                           apply NoDup_nil]))) in H.
    destruct H as [[k Hk]|[k [o [m [Hk [Hm Hp]]]]]].
    + simpl in Hk. intuition discriminate.
    + simpl in Hk. destruct Hk as [Hk|[Hk|[]]]; [|discriminate].
      injection Hk as <- <-. simpl in Hm.
      destruct Hm as [Hm|[Hm|[]]]; [|discriminate].
      injection Hm as <-. discriminate.
  - apply (proj2 (compilePO_throws_iff Shared.formatCharset Shared.foldLine
                    Shared.generateHeader
                    (Some (mkTable None None
                             (Some [("", ContextObj
                                           [("x", EntryPrim JNull)])])))
                    None
                    ltac:(split;
                          [repeat (apply NoDup_cons;
                                   [simpl; intuition discriminate|]);
                           apply NoDup_nil
                          |repeat (apply Forall_cons; [simpl|]);
                           try apply Forall_nil;
                           repeat (apply NoDup_cons;
                                   [simpl; intuition discriminate|]);
                           apply NoDup_nil]))).
    right. exists EmptyString, [("x", EntryPrim JNull)], "x".
    split; [now left|]. split; [now left | reflexivity].
Defined.

(** ** The media type of [content-type] *)

Lemma split_on_head (c : ascii) (p0 rest : string) :
  contains c p0 = false ->
  split_on c (p0 ++ String c rest) = p0 :: split_on c rest.
Proof.
  intros H. now rewrite split_on_app_sep, (split_on_free c p0 H).
Qed.

(** X15: [_handleCharset] never changes the media type: the rewritten
    [content-type] header starts with the part of the old value before its
    first [;] ("text/plain" when the header is missing or empty), always
    followed by ["; "], and reading the header again gives the same media
    type. *)
Theorem content_type_media_kept (formatCharset : option string -> string)
  (table : option Table) (options : option Options) :
  let hs := or_obj (headers (table_or_empty table)) in
  let hs' :=
    or_obj (headers (_table (new_Compiler formatCharset table options))) in
  (exists rest,
     obj_get hs' "content-type"
     = Some (hd EmptyString (content_type_parts hs) ++ "; " ++ rest))
  /\ hd EmptyString (content_type_parts hs')
     = hd EmptyString (content_type_parts hs).
Proof.
  intros hs hs'. unfold hs'. rewrite new_Compiler_eq.
  rewrite (handleCharset_eq formatCharset _ _ _ _ eq_refl eq_refl eq_refl).
  cbn [_table headers or_obj]. fold hs.
  destruct (header_parts_free hs) as [Hp0 _].
  destruct (map_params formatCharset _ _) as [cs params].
  destruct (truthy_str cs); cbn [_table headers or_obj];
    (split; [eexists; apply obj_get_set|]);
    unfold content_type_parts at 1; rewrite obj_get_set;
    match goal with
    | |- context [or_str (Some ?h) _] =>
        assert (E : or_empty (or_str (Some h) (Some "text/plain")) = h)
    end;
    try (unfold or_str;
         match goal with
         | |- context [String.eqb ?h EmptyString] =>
             destruct (String.eqb_spec h EmptyString) as [E|_];
             [|reflexivity]
         end;
         destruct (hd EmptyString (content_type_parts hs)); discriminate);
    rewrite E;
    match goal with
    | |- context [String.concat "; " ?l] =>
        change (hd EmptyString
                  (split_on ";"
                     (hd EmptyString (content_type_parts hs)
                      ++ String ";" (String " " (String.concat "; " l))))
                = hd EmptyString (content_type_parts hs))
    end;
    now rewrite split_on_head.
Qed.
